(** * rinha-ts: the tree-walking interpreter of [src/interpreter.ts]

    A shallow embedding of the interpreter and of the syntax tree of
    [src/types.ts], followed by the properties of its evaluation rules.

    Modelling choices.
    - JavaScript objects are references.  An [Env] is allocated in a store
      and a closure holds the address of the environment it captured, so
      that the in-place update [newEnv.objects[name] = value] of the [Let]
      case is seen through every alias, as it is in the source.
    - A [number] is an IEEE 754 double.  The numbers of a program are the
      integer literals and what the operators make of them, so every one
      is an integer-valued double, a zero of either sign, an infinity or
      NaN: [number] has exactly these values, with the integers as [Z].
      Sums, differences and products are the exact results rounded to the
      nearest double, ties to even, with overflow to an infinity; the
      quotient is rounded to the nearest double before [Math.floor] sees
      it; [%] is exact.  A literal stands for the double nearest to it.
    - Two situations leave this fragment and are reported by [Stop]
      instead of being given an invented meaning: a lookup of an unbound
      name that [Object.prototype] defines (JavaScript yields a host
      object that is not a [Value]), and a binding of the name [__proto__]
      (JavaScript replaces the prototype of the record).
    - [interpret] recurses through closure bodies, so it is defined with a
      fuel argument; running out of fuel is reported by [Stop OutOfFuel]. *)

From Stdlib Require Import ZArith QArith Qround Lia.
From stdpp Require Import gmap strings list pretty.

Set Warnings "-register-all".

Local Open Scope string_scope.
Local Open Scope Z_scope.

(** ** Syntax tree ([src/types.ts]) *)

Module t.

Record Location := { start : Z; end_ : Z; filename : string }.

Record Parameter_ := { text : string; location : Location }.

Inductive BinaryOp :=
  | Add | Sub | Mul | Div | Rem | Eq | Neq | Lt | Gt | Lte | Gte | And | Or.

Inductive Term :=
  | Int (value : Z) (location : Location)
  | Str (value : string) (location : Location)
  | Bool (value : bool) (location : Location)
  | Call (callee : Term) (arguments : list Term) (location : Location)
  | Binary (lhs : Term) (op : BinaryOp) (rhs : Term) (location : Location)
  | Function (parameters : list Parameter_) (value : Term) (location : Location)
  | Let (name : Parameter_) (value : Term) (next : Term) (location : Location)
  | If (condition : Term) (then_ : Term) (otherwise : Term) (location : Location)
  | Print (value : Term) (location : Location)
  | First (value : Term) (location : Location)
  | Second (value : Term) (location : Location)
  | Tuple (first : Term) (second : Term) (location : Location)
  | Var (text : string) (location : Location).

Record File := { expression : Term; file_location : Location }.

End t.

(** ** Numbers *)

(** The values a [number] takes in a program: an integer-valued double
    ([Finite 0] is +0), -0, the two infinities and NaN. *)
Inductive number :=
  | Finite (z : Z)
  | NegZero
  | Infinity
  | NegInfinity
  | NaN.
Coercion Finite : Z >-> number.

(** A double that need not be an integer: the result of [/] and of [%],
    before [Math.floor].  [Real x] is the finite double of value [x] and
    [Real 0] is +0. *)
Inductive double :=
  | Real (x : Q)
  | MinusZero
  | PlusInfinity
  | MinusInfinity
  | NotANumber.

Module Number.

(** Above this magnitude a double no longer holds every integer: 2^53 - 1. *)
Definition MAX_SAFE_INTEGER : Z := 9007199254740991.

(** The integer a finite number stands for. *)
Definition integer (x : number) : option Z :=
  match x with
  | Finite z => Some z
  | NegZero => Some 0
  | _ => None
  end.

(** The sign bit. *)
Definition negative (x : number) : bool :=
  match x with
  | Finite z => z <? 0
  | NegZero | NegInfinity => true
  | Infinity | NaN => false
  end.

Definition isNaN (x : number) : bool :=
  match x with
  | NaN => true
  | _ => false
  end.

Definition isZero (x : number) : bool :=
  match x with
  | Finite 0 | NegZero => true
  | _ => false
  end.

Definition zero (minus : bool) : number := if minus then NegZero else Finite 0.

Definition infinity (minus : bool) : number :=
  if minus then NegInfinity else Infinity.

(** The integer nearest to [n / d], for [0 <= n] and [0 < d]; of two
    equally near ones, the even one. *)
Definition roundEven (n d : Z) : Z :=
  let k := n / d in
  let r := n mod d in
  if 2 * r <? d then k
  else if d <? 2 * r then k + 1
  else if Z.even k then k else k + 1.

(** The double nearest to the integer [z].  Up to 2^53 every integer is a
    double; above, a double has 53 significant bits, and from 2^1024 on
    the result is an infinity. *)
Definition nearest (z : Z) : number :=
  if Z.abs z <=? 2 ^ 53 then Finite z
  else
    let e := Z.log2 (Z.abs z) - 52 in
    let v := roundEven (Z.abs z) (2 ^ e) * 2 ^ e in
    if 2 ^ 1024 <=? v then infinity (z <? 0) else Finite (Z.sgn z * v).

(** [l + r] *)
Definition add (l r : number) : number :=
  match l, r with
  | NaN, _ | _, NaN => NaN
  | Infinity, NegInfinity | NegInfinity, Infinity => NaN
  | Infinity, _ | _, Infinity => Infinity
  | NegInfinity, _ | _, NegInfinity => NegInfinity
  | NegZero, x | x, NegZero => x
  | Finite a, Finite b => nearest (a + b)
  end.

(** [- x] *)
Definition neg (x : number) : number :=
  match x with
  | Finite 0 => NegZero
  | Finite z => Finite (- z)
  | NegZero => Finite 0
  | Infinity => NegInfinity
  | NegInfinity => Infinity
  | NaN => NaN
  end.

(** [l - r] *)
Definition sub (l r : number) : number := add l (neg r).

(** [l * r] *)
Definition mul (l r : number) : number :=
  match integer l, integer r with
  | Some a, Some b =>
      if a * b =? 0 then zero (xorb (negative l) (negative r))
      else nearest (a * b)
  | _, _ =>
      if isNaN l || isNaN r || isZero l || isZero r then NaN
      else infinity (xorb (negative l) (negative r))
  end.

(** The fraction [(n / d) / 2^e] as a numerator and a denominator. *)
Definition scaled (n d e : Z) : Z * Z :=
  (n * 2 ^ Z.max 0 (- e), d * 2 ^ Z.max 0 e).

(** The exponent [e] of the double nearest to [n / d], for [0 < n] and
    [0 < d]: the one with [2^52 <= (n / d) / 2^e < 2^53]. *)
Definition exponent (n d : Z) : Z :=
  let e := Z.log2 n - Z.log2 d - 52 in
  let '(N, D) := scaled n d e in
  if 2 ^ 52 * D <=? N then e else e - 1.

(** Its 53-bit significand. *)
Definition significand (n d : Z) : Z :=
  let '(N, D) := scaled n d (exponent n d) in roundEven N D.

(** The rational [m * 2^e]. *)
Definition dyadic (m e : Z) : Q :=
  if 0 <=? e then inject_Z (m * 2 ^ e) else Qmake m (Z.to_pos (2 ^ (- e))).

(** The value of the double nearest to [a / b], for integers [a] and [b]
    that are not zero, with its 53 significant bits.  A quotient of two
    integers that are doubles is not large enough to overflow.  Below
    2^-1022 a double has fewer bits; such a quotient is still not zero and
    below 1 in magnitude, and [Math.floor], the one reader of a quotient,
    yields 0 or -1 for it with either number of bits. *)
Definition quotient (a b : Z) : Q :=
  dyadic (Z.sgn a * Z.sgn b * significand (Z.abs a) (Z.abs b))
         (exponent (Z.abs a) (Z.abs b)).

(** [l / r] *)
Definition divide (l r : number) : double :=
  match integer l, integer r with
  | Some a, Some b =>
      if b =? 0 then
        if a =? 0 then NotANumber
        else if xorb (negative l) (negative r) then MinusInfinity
        else PlusInfinity
      else if a =? 0 then
        if xorb (negative l) (negative r) then MinusZero else Real 0
      else Real (quotient a b)
  | Some _, None =>
      if isNaN r then NotANumber
      else if xorb (negative l) (negative r) then MinusZero
      else Real 0
  | None, Some _ =>
      if isNaN l then NotANumber
      else if xorb (negative l) (negative r) then MinusInfinity
      else PlusInfinity
  | None, None => NotANumber
  end.

(** [l % r]: the remainder of the division truncated toward zero, exact,
    with the sign of the dividend also when it is zero. *)
Definition modulo (l r : number) : double :=
  match integer l, integer r with
  | Some a, Some b =>
      if b =? 0 then NotANumber
      else if Z.rem a b =? 0 then (if negative l then MinusZero else Real 0)
      else Real (inject_Z (Z.rem a b))
  | Some a, None =>
      if isNaN r then NotANumber
      else if negative l && (a =? 0) then MinusZero
      else Real (inject_Z a)
  | None, _ => NotANumber
  end.

(** How two numbers compare; NaN compares with nothing, -0 equals +0. *)
Definition order (l r : number) : option comparison :=
  match l, r with
  | NaN, _ | _, NaN => None
  | Infinity, Infinity | NegInfinity, NegInfinity => Some Eq
  | Infinity, _ | _, NegInfinity => Some Gt
  | _, Infinity | NegInfinity, _ => Some Lt
  | _, _ => Some (default 0 (integer l) ?= default 0 (integer r))
  end.

(** [l < r] *)
Definition less (l r : number) : bool :=
  match order l r with
  | Some Lt => true
  | _ => false
  end.

(** [l > r] *)
Definition greater (l r : number) : bool := less r l.

(** [l <= r] *)
Definition lessOrEqual (l r : number) : bool :=
  match order l r with
  | Some Lt | Some Eq => true
  | _ => false
  end.

(** [l >= r] *)
Definition greaterOrEqual (l r : number) : bool := lessOrEqual r l.

(** [l == r] *)
Definition equal (l r : number) : bool :=
  match order l r with
  | Some Eq => true
  | _ => false
  end.

(** *** [Number.prototype.toString] *)

(** The number of decimal digits of a positive integer. *)
Definition digits (z : Z) : Z := Z.of_nat (String.length (pretty z)).

(** Whether the integer [v] rounds to the double [z], for [2^53 < z]:
    [v] lies between the midpoints to the neighbours of [z], the midpoints
    included when the significand of [z] is even. *)
Definition roundsTo (z v : Z) : bool :=
  let e := Z.log2 z - 52 in
  let m := z / 2 ^ e in
  let above := 2 ^ e in
  let below := if m =? 2 ^ 52 then 2 ^ (e - 1) else 2 ^ e in
  if Z.even m then (2 * z - below <=? 2 * v) && (2 * v <=? 2 * z + above)
  else (2 * z - below <? 2 * v) && (2 * v <? 2 * z + above).

(** The decimals [s * 10^j] with [k] digits [s] on either side of [z]. *)
Definition candidates (z k : Z) : list (Z * Z) :=
  let j := digits z - k in
  let s := z / 10 ^ j in
  (s, j) :: (if s + 1 <? 10 ^ k then [(s + 1, j)]
             else if k =? 1 then [(1, j + 1)] else []).

(** Of two decimals the one closer to [z]; when equally close, the one
    with even digits. *)
Definition closer (z : Z) (c1 c2 : Z * Z) : Z * Z :=
  let d1 := Z.abs (c1.1 * 10 ^ c1.2 - z) in
  let d2 := Z.abs (c2.1 * 10 ^ c2.2 - z) in
  if d1 <? d2 then c1
  else if d2 <? d1 then c2
  else if Z.even c1.1 then c1 else c2.

(** The decimal with the fewest digits that rounds to [z], searched from
    [k] digits on. *)
Fixpoint shortest (fuel : nat) (z k : Z) : Z * Z :=
  match fuel with
  | O => (z, 0)
  | S fuel =>
      match filter (fun c => Is_true (roundsTo z (c.1 * 10 ^ c.2)))
                   (candidates z k) with
      | [] => shortest fuel z (k + 1)
      | [c] => c
      | c1 :: c2 :: _ => closer z c1 c2
      end
  end.

Definition zeros (n : Z) : string :=
  String.concat "" (replicate (Z.to_nat n) "0").

(** The text of [s * 10^j]: the digits followed by zeros up to 21 digits
    in all, and in exponent notation beyond. *)
Definition layout (s j : Z) : string :=
  let text := pretty s in
  let k := Z.of_nat (String.length text) in
  let n := k + j in
  if n <=? 21 then text +:+ zeros j
  else
    match text with
    | String c rest =>
        String c (if k =? 1 then "" else "." +:+ rest)
        +:+ "e+" +:+ pretty (n - 1)
    | EmptyString => ""
    end.

(** The text of a positive integer-valued double: up to 2^53 its own
    decimal numeral, which no shorter decimal rounds to. *)
Definition numeral (z : Z) : string :=
  if z <=? 2 ^ 53 then pretty z
  else let '(s, j) := shortest (Z.to_nat (digits z)) z 1 in layout s j.

Definition toString (x : number) : string :=
  match x with
  | Finite z => if z <? 0 then "-" +:+ numeral (- z) else numeral z
  | NegZero => "0"
  | Infinity => "Infinity"
  | NegInfinity => "-Infinity"
  | NaN => "NaN"
  end.

End Number.

(** [Math.floor] *)
Definition Math_floor (x : double) : number :=
  match x with
  | Real q => Finite (Qfloor q)
  | MinusZero => NegZero
  | PlusInfinity => Infinity
  | MinusInfinity => NegInfinity
  | NotANumber => NaN
  end.

(** ** Values and environments *)

(** Address of an environment object in the store. *)
Definition ref := nat.

(** A function value. *)
Module Closure.
Record Closure := {
  body : t.Term;
  parameters : list string;
  env : ref
}.
End Closure.
Abbreviation Closure := Closure.Closure.

(** A value is the result of the interpretation. *)
Inductive Value :=
  | VBoolean (value : bool)
  | VString (value : string)
  | VNumber (value : number)
  | VClosure (value : Closure)
  | VTuple (fst snd : Value).

(** Maps variable names to values. *)
Record Env := { objects : gmap string Value }.

(** ** Outcomes *)

(** The three [throw new Error(...)] of the source. *)
Inductive error :=
  | TypeMismatch (type : string)
  | UnboundVariable (text : string)
  | ArityMismatch (expected actual : nat).

(** The text carried by the thrown [Error]. *)
Definition message (e : error) : string :=
  match e with
  | TypeMismatch type => "not a " +:+ type
  | UnboundVariable text => "cannot find variable " +:+ text
  | ArityMismatch expected actual =>
      "expected " +:+ pretty expected +:+ " arguments but instead got " +:+ pretty actual
  end.

(** Why an evaluation left the modelled fragment. *)
Inductive limit :=
  | OutOfFuel
  | Inherited (text : string)
  | PrototypeWrite.

Inductive outcome (A : Type) :=
  | Ret (a : A)
  | Throw (e : error)
  | Stop (l : limit).
Arguments Ret {A} a.
Arguments Throw {A} e.
Arguments Stop {A} l.

Definition obind {A B} (o : outcome A) (k : A -> outcome B) : outcome B :=
  match o with
  | Ret a => k a
  | Throw e => Throw e
  | Stop l => Stop l
  end.

(** ** Operator evaluator *)

Definition typeMismatch {A} (type : string) : outcome A :=
  Throw (TypeMismatch type).

Definition assertInt (value : Value) : outcome number :=
  match value with
  | VNumber n => Ret n
  | _ => typeMismatch "int"
  end.

Definition assertTuple (value : Value) : outcome (Value * Value) :=
  match value with
  | VTuple fst snd => Ret (fst, snd)
  | _ => typeMismatch "tuple"
  end.

Definition assertClosure (value : Value) : outcome Closure :=
  match value with
  | VClosure c => Ret c
  | _ => typeMismatch "closure"
  end.

Definition assertBool (value : Value) : outcome bool :=
  match value with
  | VBoolean b => Ret b
  | _ => typeMismatch "closure"
  end.

Definition castToString (value : Value) : outcome string :=
  match value with
  | VNumber n => Ret (Number.toString n)
  | VString s => Ret s
  | _ => typeMismatch "string or int"
  end.

Definition isEqual (left right : Value) : outcome bool :=
  match left, right with
  | VNumber l, VNumber r => Ret (Number.equal l r)
  | VString l, VString r => Ret (bool_decide (l = r))
  | VBoolean l, VBoolean r => Ret (Bool.eqb l r)
  | _, _ => typeMismatch "number or string or boolean"
  end.

Definition interpretBinary (left right : Value) (op : t.BinaryOp) : outcome Value :=
  match op with
  | t.Add =>
      match left, right with
      | VNumber l, VNumber r => Ret (VNumber (Number.add l r))
      | _, _ =>
          obind (castToString left) (fun leftVal =>
          obind (castToString right) (fun rightVal =>
          Ret (VString (leftVal +:+ rightVal))))
      end
  | t.Eq =>
      obind (isEqual left right) (fun value => Ret (VBoolean value))
  | t.Neq =>
      obind (isEqual left right) (fun value => Ret (VBoolean (negb value)))
  | t.Sub =>
      obind (assertInt left) (fun leftVal =>
      obind (assertInt right) (fun rightVal =>
      Ret (VNumber (Number.sub leftVal rightVal))))
  | t.Mul =>
      obind (assertInt left) (fun leftVal =>
      obind (assertInt right) (fun rightVal =>
      Ret (VNumber (Number.mul leftVal rightVal))))
  | t.Div =>
      obind (assertInt left) (fun leftVal =>
      obind (assertInt right) (fun rightVal =>
      Ret (VNumber (Math_floor (Number.divide leftVal rightVal)))))
  | t.Rem =>
      obind (assertInt left) (fun leftVal =>
      obind (assertInt right) (fun rightVal =>
      Ret (VNumber (Math_floor (Number.modulo leftVal rightVal)))))
  | t.Lt =>
      obind (assertInt left) (fun leftVal =>
      obind (assertInt right) (fun rightVal =>
      Ret (VBoolean (Number.less leftVal rightVal))))
  | t.Gt =>
      obind (assertInt left) (fun leftVal =>
      obind (assertInt right) (fun rightVal =>
      Ret (VBoolean (Number.greater leftVal rightVal))))
  | t.Lte =>
      obind (assertInt left) (fun leftVal =>
      obind (assertInt right) (fun rightVal =>
      Ret (VBoolean (Number.lessOrEqual leftVal rightVal))))
  | t.Gte =>
      obind (assertInt left) (fun leftVal =>
      obind (assertInt right) (fun rightVal =>
      Ret (VBoolean (Number.greaterOrEqual leftVal rightVal))))
  | t.And =>
      obind (assertBool left) (fun leftVal =>
      obind (assertBool right) (fun rightVal =>
      Ret (VBoolean (leftVal && rightVal))))
  | t.Or =>
      obind (assertBool left) (fun leftVal =>
      obind (assertBool right) (fun rightVal =>
      Ret (VBoolean (leftVal || rightVal))))
  end.

Fixpoint showValue (value : Value) : string :=
  match value with
  | VNumber n => Number.toString n
  | VBoolean b => if b then "true" else "false"
  | VString s => s
  | VClosure _ => "<#closure>"
  | VTuple fst snd => "(" +:+ showValue fst +:+ "," +:+ showValue snd +:+ ")"
  end.

(** ** Store, output and the evaluation monad *)

(** The environment objects allocated so far, in allocation order, and the
    lines written by [console.log]. *)
Record state := {
  envs : list Env;
  stdout : list string
}.

Definition M (A : Type) : Type := state -> outcome A * state.

Definition ret {A} (a : A) : M A := fun st => (Ret a, st).

Definition bind {A B} (m : M A) (k : A -> M B) : M B :=
  fun st =>
    match m st with
    | (Ret a, st') => k a st'
    | (Throw e, st') => (Throw e, st')
    | (Stop l, st') => (Stop l, st')
    end.

Definition lift {A} (o : outcome A) : M A := fun st => (o, st).

Definition throw {A} (e : error) : M A := lift (Throw e).

Definition stop {A} (l : limit) : M A := lift (Stop l).

Notation "x <- c ;; k" := (bind c (fun x => k))
  (at level 20, c at level 99, k at level 200, only parsing).
Notation "c ;;; k" := (bind c (fun _ => k))
  (at level 100, k at level 200, only parsing, right associativity).

(** The record behind an address. *)
Definition deref (st : state) (env : ref) : gmap string Value :=
  from_option objects ∅ (envs st !! env).

(** Clones the environment: [{objects: {...env.objects}}] is a new object
    holding a copy of the own properties of [env.objects]. *)
Definition cloneEnv (env : ref) : M ref :=
  fun st =>
    (Ret (length (envs st)),
     {| envs := envs st ++ [ {| objects := deref st env |} ];
        stdout := stdout st |}).

(** The assignment [env.objects[name] = value], in place. *)
Definition setObject (env : ref) (name : string) (value : Value) : M unit :=
  fun st =>
    if bool_decide (name = "__proto__") then (Stop PrototypeWrite, st)
    else
      (Ret tt,
       {| envs := <[env := {| objects := <[name := value]> (deref st env) |}]> (envs st);
          stdout := stdout st |}).

(** The property names every record inherits from [Object.prototype]. *)
Definition inherited : list string :=
  [ "constructor"; "__defineGetter__"; "__defineSetter__"; "hasOwnProperty";
    "__lookupGetter__"; "__lookupSetter__"; "isPrototypeOf";
    "propertyIsEnumerable"; "toString"; "valueOf"; "__proto__";
    "toLocaleString" ].

(** The read [env.objects[text]] followed by the test [if (value)]: every
    [Value] is an object, hence truthy. *)
Definition getObject (env : ref) (text : string) : M Value :=
  fun st =>
    match deref st env !! text with
    | Some value => (Ret value, st)
    | None =>
        if bool_decide (text ∈ inherited) then (Stop (Inherited text), st)
        else (Throw (UnboundVariable text), st)
    end.

Definition console_log (line : string) : M unit :=
  fun st => (Ret tt, {| envs := envs st; stdout := stdout st ++ [line] |}).

(** ** Core evaluator *)

(** The loop of the [Call] case,
    [functionEnv.objects[closure.parameters[i]] = interpret(term.arguments[i], env)],
    run once the two lists are known to have the same length. *)
Fixpoint bindArguments (interpret : t.Term -> ref -> M Value)
    (parameters : list string) (arguments : list t.Term)
    (env functionEnv : ref) : M unit :=
  match parameters, arguments with
  | parameter :: parameters, argument :: arguments =>
      value <- interpret argument env ;;
      setObject functionEnv parameter value ;;;
      bindArguments interpret parameters arguments env functionEnv
  | _, _ => ret tt
  end.

Fixpoint interpret (fuel : nat) (term : t.Term) (env : ref) : M Value :=
  match fuel with
  | O => stop OutOfFuel
  | S fuel =>
      match term with
      | t.Str value _ => ret (VString value)
      | t.Bool value _ => ret (VBoolean value)
      | t.Int value _ => ret (VNumber (Number.nearest value))
      | t.If condition then_ otherwise _ =>
          condition <- interpret fuel condition env ;;
          boolean <- lift (assertBool condition) ;;
          interpret fuel (if boolean then then_ else otherwise) env
      | t.Tuple first second _ =>
          fst <- interpret fuel first env ;;
          snd <- interpret fuel second env ;;
          ret (VTuple fst snd)
      | t.First value _ =>
          fst <- interpret fuel value env ;;
          pair <- lift (assertTuple fst) ;;
          ret (pair.1)
      | t.Second value _ =>
          fst <- interpret fuel value env ;;
          pair <- lift (assertTuple fst) ;;
          ret (pair.2)
      | t.Binary lhs op rhs _ =>
          left <- interpret fuel lhs env ;;
          right <- interpret fuel rhs env ;;
          lift (interpretBinary left right op)
      | t.Print value _ =>
          value <- interpret fuel value env ;;
          console_log (showValue value) ;;;
          ret value
      | t.Var text _ => getObject env text
      | t.Let name value next _ =>
          newEnv <- cloneEnv env ;;
          value <- interpret fuel value newEnv ;;
          setObject newEnv (t.text name) value ;;;
          interpret fuel next newEnv
      | t.Call callee arguments _ =>
          func <- interpret fuel callee env ;;
          closure <- lift (assertClosure func) ;;
          if bool_decide (length (Closure.parameters closure) ≠ length arguments) then
            throw (ArityMismatch (length (Closure.parameters closure))
                                 (length arguments))
          else
            functionEnv <- cloneEnv (Closure.env closure) ;;
            bindArguments (interpret fuel) (Closure.parameters closure) arguments
              env functionEnv ;;;
            interpret fuel (Closure.body closure) functionEnv
      | t.Function parameters value _ =>
          ret (VClosure {| Closure.body := value;
                           Closure.env := env;
                           Closure.parameters := map t.text parameters |})
      end
  end.

(** The initial environment [{ objects: {} }] is the first object
    allocated. *)
Definition initial : state := {| envs := [ {| objects := ∅ |} ]; stdout := [] |}.

Definition interpretFile (fuel : nat) (file : t.File) : outcome Value * state :=
  interpret fuel (t.expression file) 0%nat initial.

(** * Vocabulary of the statements *)

(** ** Kinds of values *)

(** The [kind] tag of a value. *)
Definition kind (value : Value) : string :=
  match value with
  | VBoolean _ => "boolean"
  | VString _ => "string"
  | VNumber _ => "number"
  | VClosure _ => "closure"
  | VTuple _ _ => "tuple"
  end.

(** The operands [Eq] and [Neq] accept: both of the same kind, and that
    kind one of number, string and boolean. *)
Definition comparable (left right : Value) : bool :=
  bool_decide (kind left = kind right
               ∧ kind left ∈ ["number"; "string"; "boolean"]).

(** [sameNumber l r]: the two numbers are the same for [==]: the same
    number other than NaN, or two zeros of whatever sign. *)
Definition sameNumber (l r : number) : Prop :=
  (l = r ∧ l ≠ NaN) ∨ (Number.isZero l = true ∧ Number.isZero r = true).

(** [sameValue left right]: the same value; numbers are compared with
    [sameNumber]. *)
Definition sameValue (left right : Value) : Prop :=
  match left, right with
  | VNumber l, VNumber r => sameNumber l r
  | _, _ => left = right
  end.


(** ** Operators by the kind of their operands and results *)

(** The operators that check both operands with [assertInt]. *)
Definition numeric (op : t.BinaryOp) : bool :=
  match op with
  | t.Sub | t.Mul | t.Div | t.Rem | t.Lt | t.Gt | t.Lte | t.Gte => true
  | _ => false
  end.

(** The kind of the value an operator returns. *)
Definition resultKind (op : t.BinaryOp) (left right : Value) : string :=
  match op with
  | t.Add =>
      if bool_decide (kind left = "number" ∧ kind right = "number")
      then "number" else "string"
  | t.Sub | t.Mul | t.Div | t.Rem => "number"
  | _ => "boolean"
  end.

(** ** States of the store *)

(** The state in which [Let] evaluates its bound expression and [Call]
    binds the parameters: the store extended with a copy of the record of
    [env]. *)
Definition copied (env : ref) (st : state) : state :=
  {| envs := envs st ++ [ {| objects := deref st env |} ];
     stdout := stdout st |}.

(** The state reached by the update [env.objects[name] = value]. *)
Definition assigned (env : ref) (name : string) (value : Value) (st : state)
    : state :=
  {| envs := <[env := {| objects := <[name := value]> (deref st env) |}]> (envs st);
     stdout := stdout st |}.

(** The record obtained from [objects] by binding each parameter to the
    value at the same position, in parameter order: a later binding of a
    repeated name overwrites the earlier one. *)
Definition bindAll (parameters : list string) (values : list Value)
    (objects : gmap string Value) : gmap string Value :=
  foldl (fun objects binding => <[binding.1 := binding.2]> objects)
        objects (zip parameters values).

(** [evaluatedInCaller fuel env functionEnv parameters arguments st values st']:
    starting in [st], every argument evaluates, in order and in the
    environment [env], to the value at its position in [values]; after
    each one the value is stored under its parameter in [functionEnv];
    [st'] is the state reached at the end. *)
Inductive evaluatedInCaller (fuel : nat) (env functionEnv : ref) :
    list string -> list t.Term -> state -> list Value -> state -> Prop :=
  | evaluated_nil st :
      evaluatedInCaller fuel env functionEnv [] [] st [] st
  | evaluated_cons parameter parameters argument arguments st value st1 st2
      values st3 :
      interpret fuel argument env st = (Ret value, st1) ->
      setObject functionEnv parameter value st1 = (Ret tt, st2) ->
      evaluatedInCaller fuel env functionEnv parameters arguments st2 values st3 ->
      evaluatedInCaller fuel env functionEnv (parameter :: parameters)
        (argument :: arguments) st (value :: values) st3.

(** ** Relations between computations *)

(** [keeps base m]: running [m] leaves the environments of [base], the
    oldest ones of the store, as they are. *)
Definition keeps {A} (base : list Env) (m : M A) : Prop :=
  ∀ st, base `prefix_of` envs st -> base `prefix_of` envs (m st).2.

(** [approx m m']: whatever [m] computes without running out of fuel,
    [m'] computes too. *)
Definition approx {A} (m m' : M A) : Prop :=
  ∀ st o st', m st = (o, st') -> o ≠ Stop OutOfFuel -> m' st = (o, st').

(** [allocated n value]: every closure inside [value] holds the address
    of one of the first [n] environments of the store. *)
Fixpoint allocated (n : nat) (value : Value) : Prop :=
  match value with
  | VClosure closure => (Closure.env closure < n)%nat
  | VTuple fst snd => allocated n fst ∧ allocated n snd
  | _ => True
  end.

(** [wellFormed st]: every value bound in an environment of the store
    refers to environments of the store only. *)
Definition wellFormed (st : state) : Prop :=
  ∀ address record text value,
    envs st !! address = Some record ->
    objects record !! text = Some value ->
    allocated (length (envs st)) value.

(** [withOutput out st]: the state [st] with the lines [out] written
    before its own. *)
Definition withOutput (out : list string) (st : state) : state :=
  {| envs := envs st; stdout := out ++ stdout st |}.

(** [outputFramed m]: [m] does not read the output; lines written earlier
    stay in front of the lines it writes and change nothing else. *)
Definition outputFramed {A} (m : M A) : Prop :=
  ∀ st out, m (withOutput out st) = ((m st).1, withOutput out (m st).2).

(** The subterm a node evaluates first, in the node's own environment. *)
Definition evaluatedFirst (term : t.Term) : option t.Term :=
  match term with
  | t.If condition _ _ _ => Some condition
  | t.Tuple first _ _ => Some first
  | t.First value _ | t.Second value _ | t.Print value _ => Some value
  | t.Binary lhs _ _ _ => Some lhs
  | t.Call callee _ _ => Some callee
  | _ => None
  end.

(** ** Terms up to their locations *)

(** [relocate f term]: the term with every location replaced by its image
    under [f]. *)
Definition relocateParameter (f : t.Location -> t.Location)
    (parameter : t.Parameter_) : t.Parameter_ :=
  {| t.text := t.text parameter; t.location := f (t.location parameter) |}.

Fixpoint relocate (f : t.Location -> t.Location) (term : t.Term) : t.Term :=
  match term with
  | t.Int value location => t.Int value (f location)
  | t.Str value location => t.Str value (f location)
  | t.Bool value location => t.Bool value (f location)
  | t.Call callee arguments location =>
      t.Call (relocate f callee) (map (relocate f) arguments) (f location)
  | t.Binary lhs op rhs location =>
      t.Binary (relocate f lhs) op (relocate f rhs) (f location)
  | t.Function parameters value location =>
      t.Function (map (relocateParameter f) parameters) (relocate f value)
        (f location)
  | t.Let name value next location =>
      t.Let (relocateParameter f name) (relocate f value) (relocate f next)
        (f location)
  | t.If condition then_ otherwise location =>
      t.If (relocate f condition) (relocate f then_) (relocate f otherwise)
        (f location)
  | t.Print value location => t.Print (relocate f value) (f location)
  | t.First value location => t.First (relocate f value) (f location)
  | t.Second value location => t.Second (relocate f value) (f location)
  | t.Tuple first second location =>
      t.Tuple (relocate f first) (relocate f second) (f location)
  | t.Var text location => t.Var text (f location)
  end.

Definition relocateClosure (f : t.Location -> t.Location) (closure : Closure)
    : Closure :=
  {| Closure.body := relocate f (Closure.body closure);
     Closure.parameters := Closure.parameters closure;
     Closure.env := Closure.env closure |}.

Fixpoint relocateValue (f : t.Location -> t.Location) (value : Value) : Value :=
  match value with
  | VClosure closure => VClosure (relocateClosure f closure)
  | VTuple fst snd => VTuple (relocateValue f fst) (relocateValue f snd)
  | _ => value
  end.

Definition relocateEnv (f : t.Location -> t.Location) (record : Env) : Env :=
  {| objects := relocateValue f <$> objects record |}.

Definition relocateState (f : t.Location -> t.Location) (st : state) : state :=
  {| envs := relocateEnv f <$> envs st; stdout := stdout st |}.

Definition mapOutcome {A B} (g : A -> B) (o : outcome A) : outcome B :=
  match o with
  | Ret a => Ret (g a)
  | Throw e => Throw e
  | Stop l => Stop l
  end.

(** [simulates f g m m']: run from the relocated state, [m'] does what [m]
    does from the original one, up to locations. *)
Definition simulates {A} (f : t.Location -> t.Location) (g : A -> A)
    (m m' : M A) : Prop :=
  ∀ st, m' (relocateState f st)
        = (mapOutcome g (m st).1, relocateState f (m st).2).

(** ** Programs *)

(** A location for the terms written out in this file; the interpreter
    never reads it. *)
Definition nowhere : t.Location :=
  {| t.start := 0; t.end_ := 0; t.filename := "" |}.

Definition parameter (text : string) : t.Parameter_ :=
  {| t.text := text; t.location := nowhere |}.

Definition file (expression : t.Term) : t.File :=
  {| t.expression := expression; t.file_location := nowhere |}.

(** [fn (y) => { y }] *)
Definition identity : t.Term :=
  t.Function [parameter "y"] (t.Var "y" nowhere) nowhere.

(** [let sum = fn (n) => { if (n == 0) { 0 } else { n + sum(n - 1) } }; sum(3)] *)
Definition sumTo : t.Term :=
  t.Let (parameter "sum")
    (t.Function [parameter "n"]
       (t.If (t.Binary (t.Var "n" nowhere) t.Eq (t.Int 0 nowhere) nowhere)
          (t.Int 0 nowhere)
          (t.Binary (t.Var "n" nowhere) t.Add
             (t.Call (t.Var "sum" nowhere)
                [t.Binary (t.Var "n" nowhere) t.Sub (t.Int 1 nowhere) nowhere]
                nowhere)
             nowhere)
          nowhere)
       nowhere)
    (t.Call (t.Var "sum" nowhere) [t.Int 3 nowhere] nowhere)
    nowhere.

(** [let toString = fn (n) => { if (n == 0) { 0 } else { n + toString(n - 1) } };
     toString(3)] *)
Definition sumToString : t.Term :=
  t.Let (parameter "toString")
    (t.Function [parameter "n"]
       (t.If (t.Binary (t.Var "n" nowhere) t.Eq (t.Int 0 nowhere) nowhere)
          (t.Int 0 nowhere)
          (t.Binary (t.Var "n" nowhere) t.Add
             (t.Call (t.Var "toString" nowhere)
                [t.Binary (t.Var "n" nowhere) t.Sub (t.Int 1 nowhere) nowhere]
                nowhere)
             nowhere)
          nowhere)
       nowhere)
    (t.Call (t.Var "toString" nowhere) [t.Int 3 nowhere] nowhere)
    nowhere.

(** [let x = 1; let x = x + 1; x] *)
Definition shadowing : t.Term :=
  t.Let (parameter "x") (t.Int 1 nowhere)
    (t.Let (parameter "x")
       (t.Binary (t.Var "x" nowhere) t.Add (t.Int 1 nowhere) nowhere)
       (t.Var "x" nowhere) nowhere)
    nowhere.

(** [let f = fn () => { f }; f()] *)
Definition selfReturning : t.Term :=
  t.Let (parameter "f") (t.Function [] (t.Var "f" nowhere) nowhere)
    (t.Call (t.Var "f" nowhere) [] nowhere) nowhere.

(** [let f = (let g = 1; fn () => { f }); f()] *)
Definition capturedInside : t.Term :=
  t.Let (parameter "f")
    (t.Let (parameter "g") (t.Int 1 nowhere)
       (t.Function [] (t.Var "f" nowhere) nowhere) nowhere)
    (t.Call (t.Var "f" nowhere) [] nowhere) nowhere.

(** [let x = 1; let f = fn (y) => { x + y }; let x = 100; f(2)] *)
Definition captureBeforeShadowing : t.Term :=
  t.Let (parameter "x") (t.Int 1 nowhere)
    (t.Let (parameter "f")
       (t.Function [parameter "y"]
          (t.Binary (t.Var "x" nowhere) t.Add (t.Var "y" nowhere) nowhere)
          nowhere)
       (t.Let (parameter "x") (t.Int 100 nowhere)
          (t.Call (t.Var "f" nowhere) [t.Int 2 nowhere] nowhere) nowhere)
       nowhere)
    nowhere.

(** [let x = 1; let f = (let x = 100; fn (y) => { x + y }); f(x)] *)
Definition argumentInCaller : t.Term :=
  t.Let (parameter "x") (t.Int 1 nowhere)
    (t.Let (parameter "f")
       (t.Let (parameter "x") (t.Int 100 nowhere)
          (t.Function [parameter "y"]
             (t.Binary (t.Var "x" nowhere) t.Add (t.Var "y" nowhere) nowhere)
             nowhere)
          nowhere)
       (t.Call (t.Var "f" nowhere) [t.Var "x" nowhere] nowhere) nowhere)
    nowhere.

(** [(fn (a, b) => { a })(1)] *)
Definition oneArgumentForTwo : t.Term :=
  t.Call (t.Function [parameter "a"; parameter "b"] (t.Var "a" nowhere) nowhere)
    [t.Int 1 nowhere] nowhere.

(** [(1000000000 * 100000000) / 7] *)
Definition largeQuotient : t.Term :=
  t.Binary
    (t.Binary (t.Int 1000000000 nowhere) t.Mul (t.Int 100000000 nowhere) nowhere)
    t.Div (t.Int 7 nowhere) nowhere.

(** [(0 / 0) == (0 / 0)] *)
Definition notANumberTwice : t.Term :=
  t.Binary
    (t.Binary (t.Int 0 nowhere) t.Div (t.Int 0 nowhere) nowhere)
    t.Eq
    (t.Binary (t.Int 0 nowhere) t.Div (t.Int 0 nowhere) nowhere) nowhere.

(** * Properties *)

(** ** Reading the monad *)

Lemma bind_Ret {A B} (m : M A) (k : A -> M B) st a st' :
  m st = (Ret a, st') -> bind m k st = k a st'.
Proof. intros H. unfold bind. now rewrite H. Qed.

Lemma bind_Throw {A B} (m : M A) (k : A -> M B) st e st' :
  m st = (Throw e, st') -> bind m k st = (Throw e, st').
Proof. intros H. unfold bind. now rewrite H. Qed.

Lemma bind_Stop {A B} (m : M A) (k : A -> M B) st l st' :
  m st = (Stop l, st') -> bind m k st = (Stop l, st').
Proof. intros H. unfold bind. now rewrite H. Qed.

(** ** Boolean checks *)

Lemma assertBool_other value :
  kind value ≠ "boolean" -> assertBool value = Throw (TypeMismatch "closure").
Proof. destruct value; simpl; intros H; [congruence | reflexivity ..]. Qed.

(** C10: whenever a boolean is required (the condition of [If], either
    operand of [And] and [Or]) and the value is not a boolean, the error
    raised names the expected kind as "closure": its message is
    "not a closure". *)
Theorem boolean_check_reports_closure (value : Value) :
  kind value ≠ "boolean" ->
  assertBool value = Throw (TypeMismatch "closure")
  ∧ message (TypeMismatch "closure") = "not a closure"
  ∧ (∀ fuel condition then_ otherwise location env st st',
       interpret fuel condition env st = (Ret value, st') ->
       interpret (S fuel) (t.If condition then_ otherwise location) env st
       = (Throw (TypeMismatch "closure"), st'))
  ∧ (∀ other op, op = t.And ∨ op = t.Or ->
       interpretBinary value other op = Throw (TypeMismatch "closure")
       ∧ interpretBinary other value op = Throw (TypeMismatch "closure")).
Proof.
  intros Hkind. pose proof (assertBool_other value Hkind) as Hassert.
  split; [exact Hassert|]. split; [reflexivity|]. split.
  - intros fuel condition then_ otherwise location env st st' Hc. simpl.
    rewrite (bind_Ret _ _ _ _ _ Hc). unfold bind, lift. now rewrite Hassert.
  - intros other op [-> | ->]; simpl; rewrite Hassert; simpl; split; try reflexivity;
      destruct other; reflexivity.
Qed.

Lemma boolean_check_reports_closure_witness :
  kind (VNumber 1) ≠ "boolean"
  ∧ interpretBinary (VBoolean true) (VNumber 1) t.And = Throw (TypeMismatch "closure").
Proof.
  assert (H : kind (VNumber 1) ≠ "boolean") by (simpl; congruence).
  split; [exact H|].
  apply (boolean_check_reports_closure (VNumber 1) H).
  now left.
Defined.

(** ** Division and remainder *)

Lemma roundEven_bounds n d :
  0 < d ->
  2 * n - d <= 2 * d * Number.roundEven n d <= 2 * n + d.
Proof.
  intros Hd. unfold Number.roundEven.
  pose proof (Z.div_mod n d ltac:(lia)) as Hn.
  pose proof (Z.mod_pos_bound n d Hd) as Hr.
  generalize dependent (n mod d). generalize dependent (n / d). intros k r Hn Hr.
  destruct (Z.ltb_spec (2 * r) d); [nia|].
  destruct (Z.ltb_spec d (2 * r)); [nia|].
  destruct (Z.even k); nia.
Qed.

(** The exponent is small enough for the scaled quotient to have 53
    bits. *)
Lemma exponent_lower n d :
  0 < n -> 0 < d ->
  2 ^ 52 * (d * 2 ^ Z.max 0 (Number.exponent n d))
  <= n * 2 ^ Z.max 0 (- Number.exponent n d).
Proof.
  intros Hn Hd. unfold Number.exponent, Number.scaled.
  destruct (Z.leb_spec (2 ^ 52 * (d * 2 ^ Z.max 0 (Z.log2 n - Z.log2 d - 52)))
              (n * 2 ^ Z.max 0 (- (Z.log2 n - Z.log2 d - 52)))) as [H|_];
    [exact H|].
  destruct (Z.log2_spec n Hn) as [Hn1 _].
  destruct (Z.log2_spec d Hd) as [_ Hd2].
  pose proof (Z.log2_nonneg n) as Hln. pose proof (Z.log2_nonneg d) as Hld.
  set (ln := Z.log2 n) in *. set (ld := Z.log2 d) in *.
  set (X := Z.max 0 (ln - ld - 52 - 1)).
  set (Y := Z.max 0 (- (ln - ld - 52 - 1))).
  assert (HX : 0 <= X) by lia. assert (HY : 0 <= Y) by lia.
  assert (Hpow : 2 ^ 52 * 2 ^ (ld + 1) * 2 ^ X = 2 ^ ln * 2 ^ Y).
  { rewrite <- !Z.pow_add_r by lia. f_equal. lia. }
  assert (0 < 2 ^ X) by (apply Z.pow_pos_nonneg; lia).
  assert (0 < 2 ^ Y) by (apply Z.pow_pos_nonneg; lia).
  assert (0 < 2 ^ 52) by (apply Z.pow_pos_nonneg; lia).
  replace (Z.succ ld) with (ld + 1) in Hd2 by lia.
  transitivity (2 ^ 52 * 2 ^ (ld + 1) * 2 ^ X); [nia|].
  rewrite Hpow. nia.
Qed.

Lemma Qfloor_dyadic m e :
  Qfloor (Number.dyadic m e) = if 0 <=? e then m * 2 ^ e else m / 2 ^ (- e).
Proof.
  unfold Number.dyadic. destruct (Z.leb_spec 0 e); [apply Qfloor_Z|].
  cbn [Qfloor]. rewrite Z2Pos.id; [reflexivity|]. apply Z.pow_pos_nonneg; lia.
Qed.

(** Below 2^53 the rounding of the quotient does not reach the next
    integer: the floor of the rounded quotient is the floor of the exact
    one, for either sign. *)
Lemma significand_floor a b :
  0 < a < 2 ^ 53 -> 0 < b ->
  Qfloor (Number.dyadic (Number.significand a b) (Number.exponent a b)) = a / b
  ∧ Qfloor (Number.dyadic (- Number.significand a b) (Number.exponent a b))
    = (- a) / b.
Proof.
  intros Ha Hb. rewrite !Qfloor_dyadic.
  pose proof (exponent_lower a b ltac:(lia) Hb) as Hlow.
  unfold Number.significand, Number.scaled.
  generalize dependent (Number.exponent a b). intros e Hlow.
  pose proof (roundEven_bounds (a * 2 ^ Z.max 0 (- e)) (b * 2 ^ Z.max 0 e)) as Hm.
  generalize dependent
    (Number.roundEven (a * 2 ^ Z.max 0 (- e)) (b * 2 ^ Z.max 0 e)).
  intros m Hm.
  destruct (Z.leb_spec 0 e) as [He|He].
  - replace (Z.max 0 (- e)) with 0 in * by lia.
    replace (Z.max 0 e) with e in * by lia.
    assert (Hp : 0 < 2 ^ e) by (apply Z.pow_pos_nonneg; lia).
    rewrite ?Z.pow_0_r, ?Z.mul_1_r in *.
    assert (He0 : e = 0).
    { destruct (Z.eq_dec e 0) as [|Hne]; [assumption|exfalso].
      assert (2 ^ 1 <= 2 ^ e) by (apply Z.pow_le_mono_r; lia).
      change (2 ^ 1) with 2 in *. change (2 ^ 52) with 4503599627370496 in *.
      change (2 ^ 53) with 9007199254740992 in *. nia. }
    subst e. rewrite ?Z.pow_0_r, ?Z.mul_1_r in *.
    change (2 ^ 52) with 4503599627370496 in *.
    change (2 ^ 53) with 9007199254740992 in *.
    assert (b = 1) by nia. subst b.
    rewrite !Z.div_1_r. specialize (Hm ltac:(lia)). lia.
  - replace (Z.max 0 (- e)) with (- e) in * by lia.
    replace (Z.max 0 e) with 0 in * by lia.
    rewrite ?Z.pow_0_r, ?Z.mul_1_r in *.
    assert (Hs : 0 < 2 ^ (- e)) by (apply Z.pow_pos_nonneg; lia).
    generalize dependent (2 ^ (- e)). intros s Hlow Hm Hs. specialize (Hm Hb).
    change (2 ^ 52) with 4503599627370496 in *.
    change (2 ^ 53) with 9007199254740992 in *.
    assert (Hbs : b < 2 * s) by nia.
    pose proof (Z.div_mod a b ltac:(lia)) as Hdiv.
    pose proof (Z.mod_pos_bound a b Hb) as Hr.
    generalize dependent (a mod b). generalize dependent (a / b).
    intros n r Hdiv Hr.
    assert (Hlo : n * s <= m) by nia.
    assert (Hhi : m < (n + 1) * s).
    { destruct (Z.lt_ge_cases m ((n + 1) * s)) as [|Hge]; [assumption|exfalso].
      nia. }
    split.
    + symmetry. apply Z.div_unique with (r := m - n * s); lia.
    + destruct (Z.eq_dec r 0) as [Hr0|Hr0].
      * assert (m = n * s) by nia.
        assert (Hn : (- a) / b = - n).
        { symmetry. apply Z.div_unique with (r := 0); lia. }
        rewrite Hn. symmetry. apply Z.div_unique with (r := 0); lia.
      * assert (Hlo' : n * s < m) by nia.
        assert (Hn : (- a) / b = - n - 1).
        { symmetry. apply Z.div_unique with (r := b - r); lia. }
        rewrite Hn. symmetry.
        apply Z.div_unique with (r := (n + 1) * s - m); lia.
Qed.

Lemma quotient_floor (a b : Z) :
  0 < Z.abs a <= Number.MAX_SAFE_INTEGER -> b ≠ 0 ->
  Qfloor (Number.quotient a b) = a / b.
Proof.
  intros Ha Hb. unfold Number.MAX_SAFE_INTEGER in Ha. unfold Number.quotient.
  destruct (significand_floor (Z.abs a) (Z.abs b)) as [Hpos Hneg];
    [change (2 ^ 53) with 9007199254740992; lia|lia|].
  destruct (Z.lt_trichotomy a 0) as [Ha0|[Ha0|Ha0]]; [|lia|];
    destruct (Z.lt_trichotomy b 0) as [Hb0|[Hb0|Hb0]]; try lia.
  - rewrite (Z.sgn_neg a), (Z.sgn_neg b) by lia.
    replace (-1 * -1 * _) with (Number.significand (Z.abs a) (Z.abs b)) by lia.
    rewrite Hpos, (Z.abs_neq a), (Z.abs_neq b) by lia.
    apply Z.div_opp_opp. lia.
  - rewrite (Z.sgn_neg a), (Z.sgn_pos b) by lia.
    replace (-1 * 1 * _) with (- Number.significand (Z.abs a) (Z.abs b)) by lia.
    rewrite Hneg, (Z.abs_neq a), (Z.abs_eq b) by lia.
    now rewrite Z.opp_involutive.
  - rewrite (Z.sgn_pos a), (Z.sgn_neg b) by lia.
    replace (1 * -1 * _) with (- Number.significand (Z.abs a) (Z.abs b)) by lia.
    rewrite Hneg, (Z.abs_eq a), (Z.abs_neq b) by lia.
    rewrite <- (Z.div_opp_opp a b) by lia. reflexivity.
  - rewrite (Z.sgn_pos a), (Z.sgn_pos b) by lia.
    replace (1 * 1 * _) with (Number.significand (Z.abs a) (Z.abs b)) by lia.
    now rewrite Hpos, (Z.abs_eq a), (Z.abs_eq b) by lia.
Qed.

Lemma Qfloor_exact_quotient (a b : Z) :
  b ≠ 0 -> Qfloor (inject_Z a / inject_Z b) = a / b.
Proof.
  intros Hb. unfold Qdiv, Qinv, inject_Z, Qmult, Qfloor.
  destruct b as [|p|p]; [congruence| |]; cbn [Qnum Qden].
  - now rewrite Z.mul_1_r, Pos.mul_1_l.
  - rewrite Pos.mul_1_l. change (Z.neg p) with (- Z.pos p).
    rewrite <- (Z.div_opp_opp a (- Z.pos p)) by lia.
    rewrite Z.opp_involutive. f_equal. lia.
Qed.

Lemma rem_truncated (a b : Z) :
  b ≠ 0 ->
  Z.rem a b = a - b * (a ÷ b) ∧ Z.abs (Z.rem a b) < Z.abs b ∧ 0 <= a * Z.rem a b.
Proof.
  intros Hb. split; [|split].
  - pose proof (Z.quot_rem' a b). lia.
  - now apply Z.rem_bound_abs.
  - pose proof (Z.rem_sign_mul a b Hb). lia.
Qed.

Lemma floor_of_truncation (a b : Z) :
  b ≠ 0 ->
  a / b = a ÷ b - (if bool_decide (Z.rem a b ≠ 0 ∧ a * b < 0) then 1 else 0).
Proof.
  intros Hb. destruct (rem_truncated a b Hb) as (H1 & H2 & H3).
  assert (Ha : a = 0 -> Z.rem a b = 0) by (intros ->; now apply Z.rem_0_l).
  symmetry. case_bool_decide as Hcase.
  - apply Z.div_unique with (r := Z.rem a b + b); [|lia].
    assert (0 < b ∧ Z.rem a b < 0 ∨ b < 0 ∧ 0 < Z.rem a b) by nia. lia.
  - destruct (decide (Z.rem a b = 0)) as [Hr|Hr].
    + apply Z.div_unique_exact; lia.
    + apply Z.div_unique with (r := Z.rem a b); [|lia].
      assert (0 < b ∧ 0 <= Z.rem a b ∨ b < 0 ∧ Z.rem a b <= 0) by nia. lia.
Qed.

(** [Div] on a dividend that a double holds exactly: the floor of the
    exact quotient, and -0 for zero divided by a negative number. *)
Lemma Div_number (a b : Z) :
  Z.abs a <= Number.MAX_SAFE_INTEGER -> b ≠ 0 ->
  interpretBinary (VNumber a) (VNumber b) t.Div
  = Ret (VNumber (if (a =? 0) && (b <? 0) then NegZero else Finite (a / b))).
Proof.
  intros Ha Hb. unfold interpretBinary, assertInt, obind, Number.divide.
  cbn [Number.integer Number.negative].
  destruct (Z.eqb_spec b 0) as [|_]; [congruence|].
  destruct (Z.eqb_spec a 0) as [->|Ha0].
  - cbn [xorb andb]. change (0 <? 0) with false. cbn [xorb].
    destruct (b <? 0); reflexivity.
  - cbn [andb Math_floor]. now rewrite quotient_floor by lia.
Qed.

(** [Rem] on integers: the remainder of the truncated division, and -0
    when a negative dividend leaves no remainder. *)
Lemma Rem_number (a b : Z) :
  b ≠ 0 ->
  interpretBinary (VNumber a) (VNumber b) t.Rem
  = Ret (VNumber (if (Z.rem a b =? 0) && (a <? 0) then NegZero
                  else Finite (Z.rem a b))).
Proof.
  intros Hb. unfold interpretBinary, assertInt, obind, Number.modulo.
  cbn [Number.integer Number.negative].
  destruct (Z.eqb_spec b 0) as [|_]; [congruence|].
  destruct (Z.eqb_spec (Z.rem a b) 0) as [Hr|Hr].
  - cbn [andb]. destruct (a <? 0); cbn [Math_floor]; [reflexivity|].
    now rewrite Hr.
  - cbn [andb Math_floor]. now rewrite Qfloor_Z.
Qed.

Lemma integer_zero_or (test : bool) (z : Z) :
  (test = true -> z = 0) ->
  Number.integer (if test then NegZero else Finite z) = Some z.
Proof. destruct test; [intros H; now rewrite H|reflexivity]. Qed.

(** C4 (as the code has it): for a dividend [a] of magnitude at most
    2^53 - 1, the integers a double holds exactly, and a divisor [b] that
    is not zero, [Div] yields the floor of the exact quotient [a / b]: the
    integer [q] with [q <= a / b < q + 1].  It is one less than the
    quotient truncated toward zero exactly when the division is inexact
    and the operands have opposite signs. *)
Theorem Div_floors_quotient (a b : Z) :
  Z.abs a <= Number.MAX_SAFE_INTEGER ->
  b ≠ 0 ->
  ∃ (result : number) (q : Z),
    interpretBinary (VNumber a) (VNumber b) t.Div = Ret (VNumber result)
    ∧ Number.integer result = Some q
    ∧ (inject_Z q <= inject_Z a / inject_Z b)%Q
    ∧ (inject_Z a / inject_Z b < inject_Z q + 1)%Q
    ∧ q = a ÷ b - (if bool_decide (Z.rem a b ≠ 0 ∧ a * b < 0) then 1 else 0).
Proof.
  intros Ha Hb. eexists _, (a / b). split; [now apply Div_number|].
  split.
  { apply integer_zero_or. intros Htest.
    apply andb_true_iff in Htest as [Ha0 _]. apply Z.eqb_eq in Ha0.
    now rewrite Ha0. }
  rewrite <- (Qfloor_exact_quotient a b Hb).
  split; [apply Qfloor_le|]. split.
  - pose proof (Qlt_floor (inject_Z a / inject_Z b)) as H.
    now rewrite inject_Z_plus in H.
  - rewrite (Qfloor_exact_quotient a b Hb). now apply floor_of_truncation.
Qed.

Lemma Div_floors_quotient_witness :
  Z.abs (-7) <= Number.MAX_SAFE_INTEGER ∧ 2 ≠ 0
  ∧ interpretBinary (VNumber (-7)) (VNumber 2) t.Div = Ret (VNumber (-4))
  ∧ ∃ (result : number) (q : Z),
      interpretBinary (VNumber (-7)) (VNumber 2) t.Div = Ret (VNumber result)
      ∧ Number.integer result = Some q
      ∧ (inject_Z q <= inject_Z (-7) / inject_Z 2)%Q
      ∧ (inject_Z (-7) / inject_Z 2 < inject_Z q + 1)%Q
      ∧ q = (-7) ÷ 2
            - (if bool_decide (Z.rem (-7) 2 ≠ 0 ∧ (-7) * 2 < 0) then 1 else 0).
Proof.
  assert (H1 : Z.abs (-7) <= Number.MAX_SAFE_INTEGER) by (vm_compute; discriminate).
  assert (H2 : 2 ≠ 0) by lia.
  split; [exact H1|]. split; [exact H2|]. split; [reflexivity|].
  exact (Div_floors_quotient (-7) 2 H1 H2).
Defined.

(** C4 as stated fails.  The product of 1000000000 and 100000000 is the
    double 10^17; divided by 7 it gives 14285714285714286, one more than
    the floor of the exact quotient: the quotient is rounded to the
    nearest double, here upward, before [Math.floor] is applied. *)
Lemma Div_floors_the_rounded_quotient :
  (interpretFile 3 (file largeQuotient)).1 = Ret (VNumber 14285714285714286)
  ∧ interpretBinary (VNumber 100000000000000000) (VNumber 7) t.Div
    = Ret (VNumber 14285714285714286)
  ∧ 100000000000000000 / 7 = 14285714285714285
  ∧ ¬ (inject_Z 14285714285714286
       <= inject_Z 100000000000000000 / inject_Z 7)%Q.
Proof.
  split; [vm_compute; reflexivity|]. split; [vm_compute; reflexivity|].
  split; [reflexivity|]. apply Qlt_not_le. reflexivity.
Qed.

(** C3 (as the code has it): for integer operands [a] and [b] with [b]
    not zero, [Rem] yields the remainder of the division truncated
    toward zero, [a - b * trunc(a / b)]: it is smaller than [b] in
    magnitude and has the sign of the dividend [a].  For a dividend of
    magnitude at most 2^53 - 1 it equals [a - b * Div(a, b)] exactly when it
    is zero or [a] and [b] have the same sign. *)
Theorem Rem_truncates (a b : Z) :
  b ≠ 0 ->
  ∃ (remainder : number) (r : Z),
    interpretBinary (VNumber a) (VNumber b) t.Rem = Ret (VNumber remainder)
    ∧ Number.integer remainder = Some r
    ∧ r = a - b * (a ÷ b)
    ∧ Z.abs r < Z.abs b
    ∧ 0 <= a * r
    ∧ (Z.abs a <= Number.MAX_SAFE_INTEGER ->
       ∃ (quotient : number) (q : Z),
         interpretBinary (VNumber a) (VNumber b) t.Div = Ret (VNumber quotient)
         ∧ Number.integer quotient = Some q
         ∧ (r = a - b * q ↔ r = 0 ∨ 0 < a * b)).
Proof.
  intros Hb. eexists _, (Z.rem a b). split; [now apply Rem_number|].
  split.
  { apply integer_zero_or. intros Htest.
    apply andb_true_iff in Htest as [Hr _]. now apply Z.eqb_eq in Hr. }
  destruct (rem_truncated a b Hb) as (H1 & H2 & H3).
  split; [exact H1|]. split; [exact H2|]. split; [exact H3|].
  intros Ha. eexists _, (a / b). split; [now apply Div_number|].
  split.
  { apply integer_zero_or. intros Htest.
    apply andb_true_iff in Htest as [Ha0 _]. apply Z.eqb_eq in Ha0.
    now rewrite Ha0. }
  assert (Hzero : a = 0 -> Z.rem a b = 0) by (intros ->; now apply Z.rem_0_l).
  rewrite (floor_of_truncation a b Hb).
  generalize dependent (Z.rem a b). generalize (a ÷ b). intros t r H1 H2 H3 Hzero.
  case_bool_decide as Hcase; split.
  - intros Heq. exfalso. nia.
  - intros [Hr|Hab]; [tauto|lia].
  - intros _. destruct (decide (r = 0)) as [Hr|Hr]; [now left|right]. nia.
  - intros _. lia.
Qed.

Lemma Rem_truncates_witness :
  2 ≠ 0
  ∧ interpretBinary (VNumber (-7)) (VNumber 2) t.Rem = Ret (VNumber (-1))
  ∧ ∃ (remainder : number) (r : Z),
      interpretBinary (VNumber (-7)) (VNumber 2) t.Rem = Ret (VNumber remainder)
      ∧ Number.integer remainder = Some r
      ∧ r = (-7) - 2 * ((-7) ÷ 2)
      ∧ Z.abs r < Z.abs 2
      ∧ 0 <= (-7) * r
      ∧ (Z.abs (-7) <= Number.MAX_SAFE_INTEGER ->
         ∃ (quotient : number) (q : Z),
           interpretBinary (VNumber (-7)) (VNumber 2) t.Div
           = Ret (VNumber quotient)
           ∧ Number.integer quotient = Some q
           ∧ (r = (-7) - 2 * q ↔ r = 0 ∨ 0 < (-7) * 2)).
Proof.
  assert (H : 2 ≠ 0) by lia.
  split; [exact H|]. split; [reflexivity|]. exact (Rem_truncates (-7) 2 H).
Defined.

(** C3 as stated fails: [Rem(-7, 2)] is [-1], while [-7 - 2 * Div(-7, 2)]
    is [-7 - 2 * (-4) = 1]. *)
Lemma Rem_is_not_floored :
  interpretBinary (VNumber (-7)) (VNumber 2) t.Div = Ret (VNumber (-4))
  ∧ interpretBinary (VNumber (-7)) (VNumber 2) t.Rem = Ret (VNumber (-1))
  ∧ ¬ (∀ a b : Z, b ≠ 0 ->
         ∃ q : Z, interpretBinary (VNumber a) (VNumber b) t.Div = Ret (VNumber q)
                  ∧ interpretBinary (VNumber a) (VNumber b) t.Rem
                    = Ret (VNumber (a - b * q))).
Proof.
  split; [reflexivity|]. split; [reflexivity|].
  intros H. destruct (H (-7) 2 ltac:(lia)) as (q & Hq & Hr).
  vm_compute in Hq, Hr. injection Hq as <-. discriminate Hr.
Qed.

(** An infinite dividend has no remainder, and an infinite divisor leaves
    the dividend as it is. *)
Example Rem_with_an_infinity :
  interpretBinary (VNumber Infinity) (VNumber 2) t.Rem = Ret (VNumber NaN)
  ∧ interpretBinary (VNumber 5) (VNumber Infinity) t.Rem = Ret (VNumber 5).
Proof. split; vm_compute; reflexivity. Qed.

(** ** Equality *)

Lemma equal_sameNumber (l r : number) :
  Number.equal l r = true ↔ sameNumber l r.
Proof.
  unfold sameNumber, Number.equal. split.
  - destruct l as [a| | | |], r as [b| | | |]; cbn; intros H;
      try discriminate H;
      try match type of H with
          | context [?x ?= ?y] =>
              destruct (Z.compare_spec x y); try discriminate H; subst
          end;
      first [ left; split; [reflexivity|discriminate]
            | right; split; reflexivity
            | destruct b; try discriminate H; right; split; reflexivity ].
  - intros [[<- Hn]|[Hl Hr]].
    + destruct l as [a| | | |]; cbn; try reflexivity; [|now contradict Hn].
      now rewrite Z.compare_refl.
    + destruct l as [[| |]| | | |], r as [[| |]| | | |]; try discriminate;
        reflexivity.
Qed.

Lemma equal_sym (l r : number) : Number.equal l r = Number.equal r l.
Proof.
  apply eq_true_iff_eq. rewrite !equal_sameNumber. unfold sameNumber.
  split; (intros [[-> H]|[H1 H2]]; [left|right]; now split).
Qed.

Lemma equal_refl (x : number) : x ≠ NaN -> Number.equal x x = true.
Proof.
  intros Hx. apply equal_sameNumber. left. split; [reflexivity|exact Hx].
Qed.

(** C6 (as the code has it): [Eq] and [Neq] succeed exactly when both
    operands have the same kind among number, string and boolean, and
    then return a boolean.  [Eq] tells whether the operands are the same
    value, where for numbers 0 and -0 are the same and NaN is the same as
    nothing, itself included; so [Eq] gives the same answer with the
    operands exchanged and is reflexive on every operand but NaN.  [Neq]
    is its negation.  Across kinds, or with a tuple or a closure as an
    operand, both fail with TypeMismatch. *)
Theorem Eq_Neq_same_kind (left right : Value) :
  if comparable left right then
    ∃ b : bool,
      interpretBinary left right t.Eq = Ret (VBoolean b)
      ∧ interpretBinary left right t.Neq = Ret (VBoolean (negb b))
      ∧ interpretBinary right left t.Eq = Ret (VBoolean b)
      ∧ interpretBinary right left t.Neq = Ret (VBoolean (negb b))
      ∧ (b = true ↔ sameValue left right)
      ∧ (left ≠ VNumber NaN ->
         interpretBinary left left t.Eq = Ret (VBoolean true))
  else
    interpretBinary left right t.Eq
    = Throw (TypeMismatch "number or string or boolean")
    ∧ interpretBinary left right t.Neq
      = Throw (TypeMismatch "number or string or boolean").
Proof.
  destruct left as [l|l|l| |], right as [r|r|r| |];
    try (vm_compute; split; reflexivity).
  - change (comparable (VBoolean l) (VBoolean r)) with true. cbv iota.
    exists (Bool.eqb l r). destruct l, r; cbn; repeat split; congruence.
  - change (comparable (VString l) (VString r)) with true. cbv iota.
    exists (bool_decide (l = r)). cbn.
    rewrite (bool_decide_ext (r = l) (l = r)) by (split; congruence).
    rewrite (bool_decide_eq_true_2 (l = l)) by reflexivity.
    repeat split; try reflexivity.
    + intros H. apply bool_decide_eq_true_1 in H. now subst.
    + intros [= ->]. now apply bool_decide_eq_true_2.
  - change (comparable (VNumber l) (VNumber r)) with true. cbv iota.
    exists (Number.equal l r). cbn. rewrite (equal_sym r l).
    repeat split; try reflexivity.
    + apply equal_sameNumber.
    + apply equal_sameNumber.
    + intros Hl. rewrite equal_refl; [reflexivity|]. congruence.
Qed.

Lemma Eq_Neq_same_kind_witness :
  interpretBinary (VNumber 0) (VNumber NegZero) t.Eq = Ret (VBoolean true)
  ∧ interpretBinary (VNumber 3) (VNumber 3) t.Eq = Ret (VBoolean true).
Proof.
  pose proof (Eq_Neq_same_kind (VNumber 0) (VNumber NegZero)) as H1.
  pose proof (Eq_Neq_same_kind (VNumber 3) (VNumber 3)) as H2.
  change (comparable (VNumber 0) (VNumber NegZero)) with true in H1.
  change (comparable (VNumber 3) (VNumber 3)) with true in H2.
  cbv iota in H1, H2.
  destruct H1 as (b1 & H1 & _ & _ & _ & Hb1 & _).
  destruct H2 as (_ & _ & _ & _ & _ & _ & H2).
  split.
  - rewrite H1. do 2 f_equal. apply Hb1. right. split; reflexivity.
  - apply H2. discriminate.
Defined.

(** C6 as stated fails: [Eq] is not reflexive on numbers.  [0 / 0] is
    NaN, and [(0 / 0) == (0 / 0)] is false. *)
Lemma Eq_is_not_reflexive :
  (interpretFile 3 (file notANumberTwice)).1 = Ret (VBoolean false)
  ∧ interpretBinary (VNumber 0) (VNumber 0) t.Div = Ret (VNumber NaN)
  ∧ comparable (VNumber NaN) (VNumber NaN) = true
  ∧ interpretBinary (VNumber NaN) (VNumber NaN) t.Eq = Ret (VBoolean false)
  ∧ interpretBinary (VNumber NaN) (VNumber NaN) t.Neq = Ret (VBoolean true).
Proof. repeat split; vm_compute; reflexivity. Qed.

(** ** Addition *)

Lemma nearest_exact (z : Z) : Z.abs z <= 2 ^ 53 -> Number.nearest z = Finite z.
Proof.
  intros H. unfold Number.nearest.
  now destruct (Z.leb_spec (Z.abs z) (2 ^ 53)); [|lia].
Qed.

Lemma toString_exact (z : Z) :
  Z.abs z <= 2 ^ 53 -> Number.toString (Finite z) = pretty z.
Proof.
  intros H. unfold Number.toString, Number.numeral.
  destruct (Z.ltb_spec z 0) as [Hneg|Hpos].
  - destruct (Z.leb_spec (- z) (2 ^ 53)); [|lia].
    destruct z; try lia. reflexivity.
  - now destruct (Z.leb_spec z (2 ^ 53)); [|lia].
Qed.




(** ** The store only grows *)

Lemma cloneEnv_spec (env : ref) (st : state) :
  cloneEnv env st = (Ret (length (envs st)), copied env st).
Proof. reflexivity. Qed.

Lemma setObject_assigned env name value st :
  name ≠ "__proto__" ->
  setObject env name value st = (Ret tt, assigned env name value st).
Proof. intros H. unfold setObject. now rewrite bool_decide_eq_false_2. Qed.

Lemma deref_copied env st : deref (copied env st) (length (envs st)) = deref st env.
Proof.
  unfold deref at 1, copied. cbn [envs].
  now rewrite lookup_app_r, Nat.sub_diag.
Qed.

Lemma deref_assigned env name value st :
  (env < length (envs st))%nat ->
  deref (assigned env name value st) env = <[name := value]> (deref st env).
Proof.
  intros H. unfold deref at 1, assigned. cbn [envs].
  now rewrite list_lookup_insert_eq.
Qed.

Lemma deref_prefix st st' env :
  envs st `prefix_of` envs st' -> (env < length (envs st))%nat ->
  deref st' env = deref st env.
Proof. intros [k Hk] H. unfold deref. now rewrite Hk, lookup_app_l. Qed.

Lemma prefix_insert_ge {A} (base l : list A) (i : nat) (x : A) :
  base `prefix_of` l -> (length base <= i)%nat -> base `prefix_of` <[i:=x]> l.
Proof.
  intros [k ->] Hi. exists (<[(i - length base)%nat:=x]> k).
  now rewrite insert_app_r_alt.
Qed.

Lemma keeps_lift {A} base (o : outcome A) : keeps base (lift o).
Proof. now intros st H. Qed.

Lemma keeps_bind {A B} base (m : M A) (k : A -> M B) :
  keeps base m -> (∀ a, keeps base (k a)) -> keeps base (bind m k).
Proof.
  intros Hm Hk st H. unfold bind. specialize (Hm st H).
  destruct (m st) as [[a|e|l] st1]; cbn [snd] in *; try exact Hm.
  now apply Hk.
Qed.

Lemma keeps_cloneEnv_bind {B} base env (k : ref -> M B) :
  (∀ newEnv, (length base <= newEnv)%nat -> keeps base (k newEnv)) ->
  keeps base (bind (cloneEnv env) k).
Proof.
  intros Hk st H. unfold bind. rewrite cloneEnv_spec.
  apply Hk; [now apply prefix_length|]. cbn. now apply prefix_app_r.
Qed.

Lemma keeps_setObject base env name value :
  (length base <= env)%nat -> keeps base (setObject env name value).
Proof.
  intros Hl st H. unfold setObject. case_bool_decide; [exact H|].
  cbn. now apply prefix_insert_ge.
Qed.

Lemma keeps_getObject base env text : keeps base (getObject env text).
Proof.
  intros st H. unfold getObject. destruct (deref st env !! text); [exact H|].
  now case_bool_decide.
Qed.

Lemma keeps_console_log base line : keeps base (console_log line).
Proof. now intros st H. Qed.

Lemma keeps_bindArguments base (interp : t.Term -> ref -> M Value)
    parameters arguments env functionEnv :
  (∀ term env, keeps base (interp term env)) ->
  (length base <= functionEnv)%nat ->
  keeps base (bindArguments interp parameters arguments env functionEnv).
Proof.
  intros Hi Hl. revert arguments.
  induction parameters as [|parameter parameters IH];
    intros [|argument arguments]; try apply (keeps_lift base (Ret tt)).
  cbn [bindArguments]. apply keeps_bind; [apply Hi|intros value].
  apply keeps_bind; [now apply keeps_setObject|intros _]. apply IH.
Qed.

Ltac keeps_step IH :=
  first
    [ apply IH
    | apply keeps_lift
    | apply keeps_getObject
    | apply keeps_console_log
    | apply keeps_setObject; assumption
    | apply keeps_bindArguments; [intros ? ?|assumption]
    | apply keeps_cloneEnv_bind; intros ? ?
    | apply keeps_bind; [|intros ?]
    | case_bool_decide ].

Lemma interpret_keeps fuel :
  ∀ base term env, keeps base (interpret fuel term env).
Proof.
  induction fuel as [|fuel IH]; intros base term env.
  - apply keeps_lift.
  - destruct term; cbn [interpret]; unfold ret, throw, stop;
      repeat keeps_step IH.
Qed.

Lemma interpret_prefix fuel term env st :
  envs st `prefix_of` envs (interpret fuel term env st).2.
Proof. now apply interpret_keeps. Qed.

(** ** More fuel keeps every result *)

Lemma approx_refl {A} (m : M A) : approx m m.
Proof. now intros st o st' H _. Qed.

Lemma approx_bind {A B} (m m' : M A) (k k' : A -> M B) :
  approx m m' -> (∀ a, approx (k a) (k' a)) -> approx (bind m k) (bind m' k').
Proof.
  intros Hm Hk st o st' H Ho. unfold bind in *.
  destruct (m st) as [[a|e|l] st1] eqn:E.
  - rewrite (Hm st (Ret a) st1 E ltac:(discriminate)). now apply Hk.
  - injection H as <- <-. now rewrite (Hm st (Throw e) st1 E ltac:(discriminate)).
  - injection H as <- <-.
    assert (Hl : Stop l ≠ @Stop A OutOfFuel) by congruence.
    now rewrite (Hm st (Stop l) st1 E Hl).
Qed.

Lemma bindArguments_approx (interp interp' : t.Term -> ref -> M Value)
    parameters arguments env functionEnv :
  (∀ term env, approx (interp term env) (interp' term env)) ->
  approx (bindArguments interp parameters arguments env functionEnv)
         (bindArguments interp' parameters arguments env functionEnv).
Proof.
  intros Hi. revert arguments.
  induction parameters as [|parameter parameters IH];
    intros [|argument arguments]; try apply approx_refl.
  cbn [bindArguments]. apply approx_bind; [apply Hi|intros value].
  apply approx_bind; [apply approx_refl|intros _]. apply IH.
Qed.

Lemma interpret_approx fuel :
  ∀ term env, approx (interpret fuel term env) (interpret (S fuel) term env).
Proof.
  induction fuel as [|fuel IH]; intros term env.
  - intros st o st' [= <- <-] Ho. congruence.
  - destruct term; cbn [interpret];
      repeat first
        [ apply approx_refl
        | apply IH
        | apply approx_bind; [|intros ?]
        | apply bindArguments_approx; intros ? ?
        | case_bool_decide ].
Qed.

Lemma interpret_fuel_le fuel fuel' term env st o st' :
  (fuel <= fuel')%nat ->
  interpret fuel term env st = (o, st') -> o ≠ Stop OutOfFuel ->
  interpret fuel' term env st = (o, st').
Proof.
  induction 1 as [|fuel' _ IH]; [tauto|].
  intros H Ho. apply interpret_approx; auto.
Qed.

(** ** Conditionals and boolean operators *)

(** C8: the condition of an [If] is evaluated first and must be a boolean
    (else TypeMismatch); then the branch it selects is evaluated and the
    other one is not: whatever term stands in the untaken position, the
    result, the store and the output are those of the taken branch, so a
    [Print] there writes nothing. *)
Theorem If_evaluates_one_branch fuel condition then_ otherwise location env st
    value st' :
  interpret fuel condition env st = (Ret value, st') ->
  (value = VBoolean true ->
   ∀ untaken,
     interpret (S fuel) (t.If condition then_ untaken location) env st
     = interpret fuel then_ env st')
  ∧ (value = VBoolean false ->
     ∀ untaken,
       interpret (S fuel) (t.If condition untaken otherwise location) env st
       = interpret fuel otherwise env st')
  ∧ (kind value ≠ "boolean" ->
     ∀ taken untaken,
       interpret (S fuel) (t.If condition taken untaken location) env st
       = (Throw (TypeMismatch "closure"), st')).
Proof.
  intros Hc. repeat split.
  - intros -> untaken. cbn [interpret]. now rewrite (bind_Ret _ _ _ _ _ Hc).
  - intros -> untaken. cbn [interpret]. now rewrite (bind_Ret _ _ _ _ _ Hc).
  - intros Hk taken untaken. cbn [interpret]. rewrite (bind_Ret _ _ _ _ _ Hc).
    unfold bind, lift. now rewrite (assertBool_other value Hk).
Qed.

Lemma If_evaluates_one_branch_witness :
  interpret 1 (t.Bool true nowhere) 0%nat initial = (Ret (VBoolean true), initial)
  ∧ interpret 2
      (t.If (t.Bool true nowhere) (t.Int 1 nowhere)
         (t.Print (t.Int 2 nowhere) nowhere) nowhere) 0%nat initial
    = (Ret (VNumber 1), initial).
Proof.
  split; [reflexivity|].
  refine (proj1 (If_evaluates_one_branch 1 (t.Bool true nowhere)
                   (t.Int 1 nowhere) (t.Int 1 nowhere) nowhere 0%nat initial
                   (VBoolean true) initial eq_refl) eq_refl _).
Defined.

(** C7: [And] and [Or] do not short-circuit.  Both operands of the
    [Binary] node are evaluated, left then right, before the operator is
    applied; both must be booleans (else TypeMismatch).  When the right
    operand is a [Print], its line is written whatever the left operand
    is, also when the left operand alone determines the result. *)
Theorem And_Or_evaluate_both_operands fuel lhs op rhs location env st
    left st1 right st2 :
  op = t.And ∨ op = t.Or ->
  interpret fuel lhs env st = (Ret left, st1) ->
  interpret fuel rhs env st1 = (Ret right, st2) ->
  interpret (S fuel) (t.Binary lhs op rhs location) env st
  = (match left, right with
     | VBoolean l, VBoolean r =>
         Ret (VBoolean (match op with t.And => l && r | _ => l || r end))
     | _, _ => Throw (TypeMismatch "closure")
     end, st2)
  ∧ ∀ location',
      (interpret (S (S fuel))
         (t.Binary lhs op (t.Print rhs location') location) env st).2
      = {| envs := envs st2; stdout := stdout st2 ++ [showValue right] |}.
Proof.
  intros Hop Hl Hr. split.
  - cbn [interpret]. rewrite (bind_Ret _ _ _ _ _ Hl), (bind_Ret _ _ _ _ _ Hr).
    unfold lift. f_equal.
    destruct Hop as [-> | ->]; destruct left, right; reflexivity.
  - intros location'.
    assert (Hl' : interpret (S fuel) lhs env st = (Ret left, st1))
      by (apply interpret_approx; [exact Hl|discriminate]).
    assert (Hp : interpret (S fuel) (t.Print rhs location') env st1
                 = (Ret right,
                    {| envs := envs st2;
                       stdout := stdout st2 ++ [showValue right] |})).
    { cbn [interpret]. now rewrite (bind_Ret _ _ _ _ _ Hr). }
    change (interpret (S (S fuel)) ?term env st)
      with ((left <- interpret (S fuel) lhs env ;;
             right <- interpret (S fuel) (t.Print rhs location') env ;;
             lift (interpretBinary left right op)) st).
    now rewrite (bind_Ret _ _ _ _ _ Hl'), (bind_Ret _ _ _ _ _ Hp).
Qed.

Lemma And_Or_evaluate_both_operands_witness :
  (interpret 3
     (t.Binary (t.Bool false nowhere) t.And
        (t.Print (t.Bool true nowhere) nowhere) nowhere) 0%nat initial).2
  = {| envs := envs initial; stdout := ["true"] |}.
Proof.
  refine (proj2 (And_Or_evaluate_both_operands 1 (t.Bool false nowhere) t.And
                   (t.Bool true nowhere) nowhere 0%nat initial
                   (VBoolean false) initial (VBoolean true) initial
                   (or_introl eq_refl) eq_refl eq_refl) nowhere).
Defined.

(** ** Calls *)

Section evaluatedInCaller.
Context {fuel : nat} {env functionEnv : ref}.

Lemma evaluated_lengths parameters arguments st values st' :
  evaluatedInCaller fuel env functionEnv parameters arguments st values st' ->
  length parameters = length arguments ∧ length values = length arguments.
Proof. induction 1 as [|? ? ? ? ? ? ? ? ? ? _ _ _ [IH1 IH2]]; cbn; auto. Qed.

Lemma evaluated_bindArguments parameters arguments st values st' :
  evaluatedInCaller fuel env functionEnv parameters arguments st values st' ->
  bindArguments (interpret fuel) parameters arguments env functionEnv st
  = (Ret tt, st').
Proof.
  induction 1 as [|? ? ? ? ? ? ? ? ? ? Ha Hs _ IH]; [reflexivity|].
  cbn [bindArguments]. rewrite (bind_Ret _ _ _ _ _ Ha).
  now rewrite (bind_Ret _ _ _ _ _ Hs).
Qed.

Lemma evaluated_prefix base parameters arguments st values st' :
  evaluatedInCaller fuel env functionEnv parameters arguments st values st' ->
  base `prefix_of` envs st -> (length base <= functionEnv)%nat ->
  base `prefix_of` envs st'.
Proof.
  intros H Hb Hl.
  pose proof (keeps_bindArguments base (interpret fuel) parameters arguments
                env functionEnv (interpret_keeps fuel base) Hl st Hb) as Hp.
  now rewrite (evaluated_bindArguments _ _ _ _ _ H) in Hp.
Qed.

Lemma evaluated_deref parameters arguments st values st' :
  evaluatedInCaller fuel env functionEnv parameters arguments st values st' ->
  (functionEnv < length (envs st))%nat ->
  deref st' functionEnv = bindAll parameters values (deref st functionEnv)
  ∧ (functionEnv < length (envs st'))%nat.
Proof.
  induction 1 as [|parameter parameters argument arguments st value st1 st2
                   values st3 Ha Hs _ IH]; intros Hlt; [now split|].
  pose proof (interpret_prefix fuel argument env st) as Hp.
  rewrite Ha in Hp. cbn [snd] in Hp.
  assert (H1 : deref st1 functionEnv = deref st functionEnv).
  { unfold deref. destruct Hp as [k ->]. now rewrite lookup_app_l. }
  assert (Hlt1 : (functionEnv < length (envs st1))%nat).
  { apply prefix_length in Hp. lia. }
  unfold setObject in Hs. case_bool_decide; [discriminate|].
  injection Hs as <-.
  destruct IH as [IH1 IH2]; [cbn; now rewrite length_insert|].
  split; [|exact IH2]. rewrite IH1. unfold bindAll. cbn [zip zip_with foldl].
  f_equal. unfold deref at 1. cbn [envs].
  rewrite list_lookup_insert_eq by exact Hlt1. cbn. now rewrite H1.
Qed.
End evaluatedInCaller.

(** C5: in a [Call], the callee is evaluated first and must be a closure
    (else TypeMismatch); the number of arguments must equal the number of
    parameters (else ArityMismatch with the expected and the actual
    count, and no argument is evaluated); each argument is evaluated in
    the caller's environment; the body is evaluated in a fresh copy of
    the environment the closure captured, in which every parameter is
    bound to its argument in parameter order.  Nothing that existed
    before the copy was made is changed. *)
Theorem Call_protocol fuel callee arguments location env st func st1 :
  interpret fuel callee env st = (Ret func, st1) ->
  (kind func ≠ "closure" ->
   interpret (S fuel) (t.Call callee arguments location) env st
   = (Throw (TypeMismatch "closure"), st1))
  ∧ ∀ closure,
      func = VClosure closure ->
      (length (Closure.parameters closure) ≠ length arguments ->
       interpret (S fuel) (t.Call callee arguments location) env st
       = (Throw (ArityMismatch (length (Closure.parameters closure))
                               (length arguments)), st1))
      ∧ ∀ values st2,
          evaluatedInCaller fuel env (length (envs st1))
            (Closure.parameters closure) arguments
            (copied (Closure.env closure) st1) values st2 ->
          length (Closure.parameters closure) = length arguments
          ∧ interpret (S fuel) (t.Call callee arguments location) env st
            = interpret fuel (Closure.body closure) (length (envs st1)) st2
          ∧ deref st2 (length (envs st1))
            = bindAll (Closure.parameters closure) values
                (deref st1 (Closure.env closure))
          ∧ envs st1 `prefix_of` envs st2.
Proof.
  intros Hc. split.
  - intros Hk. cbn [interpret]. rewrite (bind_Ret _ _ _ _ _ Hc).
    destruct func; try reflexivity. now contradict Hk.
  - intros closure ->. split.
    + intros Hn. cbn [interpret]. rewrite (bind_Ret _ _ _ _ _ Hc).
      unfold bind, lift, assertClosure. now rewrite bool_decide_eq_true_2.
    + intros values st2 He.
      destruct (evaluated_lengths _ _ _ _ _ He) as [Hlen _].
      split; [exact Hlen|]. split; [|split].
      * cbn [interpret]. rewrite (bind_Ret _ _ _ _ _ Hc).
        unfold bind at 1, lift, assertClosure.
        rewrite bool_decide_eq_false_2 by (intros Hn; now apply Hn).
        unfold bind at 1. rewrite cloneEnv_spec.
        now rewrite (bind_Ret _ _ _ _ _ (evaluated_bindArguments _ _ _ _ _ He)).
      * destruct (evaluated_deref _ _ _ _ _ He) as [Hd _].
        { unfold copied. cbn. rewrite length_app. cbn. lia. }
        rewrite Hd. f_equal. apply deref_copied.
      * eapply evaluated_prefix; [exact He| |reflexivity].
        unfold copied. cbn. now apply prefix_app_r.
Qed.

Lemma Call_protocol_witness :
  interpret 3 (t.Call identity [t.Int 5 nowhere] nowhere) 0%nat initial
  = (Ret (VNumber 5),
     {| envs := [ {| objects := ∅ |};
                  {| objects := <["y" := VNumber 5]> ∅ |} ];
        stdout := [] |}).
Proof.
  pose (closure := {| Closure.body := t.Var "y" nowhere;
                      Closure.parameters := ["y"];
                      Closure.env := 0%nat |}).
  destruct (Call_protocol 2 identity [t.Int 5 nowhere] nowhere 0%nat initial
              (VClosure closure) initial eq_refl) as [_ H].
  destruct (H closure eq_refl) as [_ H2].
  destruct (H2 [VNumber 5]
              {| envs := [ {| objects := ∅ |};
                           {| objects := <["y" := VNumber 5]> ∅ |} ];
                 stdout := [] |}) as (_ & Heq & _).
  - eapply evaluated_cons; [reflexivity|reflexivity|apply evaluated_nil].
  - rewrite Heq. reflexivity.
Defined.

(** ** Let and the environment a closure captures *)

Lemma interpret_Let fuel name value next location env st v st2 :
  t.text name ≠ "__proto__" ->
  interpret fuel value (length (envs st)) (copied env st) = (Ret v, st2) ->
  interpret (S fuel) (t.Let name value next location) env st
  = interpret fuel next (length (envs st))
      (assigned (length (envs st)) (t.text name) v st2).
Proof.
  intros Hn Hv. cbn [interpret]. unfold bind at 1. rewrite cloneEnv_spec.
  fold (copied env st). rewrite (bind_Ret _ _ _ _ _ Hv).
  now rewrite (bind_Ret _ _ _ _ _ (setObject_assigned _ _ v st2 Hn)).
Qed.

Lemma interpret_Let_value fuel value env st v st2 :
  interpret fuel value (length (envs st)) (copied env st) = (Ret v, st2) ->
  deref st2 (length (envs st)) = deref st env
  ∧ (length (envs st) < length (envs st2))%nat.
Proof.
  intros Hv. pose proof (interpret_prefix fuel value (length (envs st))
                           (copied env st)) as Hp.
  rewrite Hv in Hp. cbn [snd] in Hp.
  assert (Hlt : (length (envs st) < length (envs (copied env st)))%nat).
  { unfold copied. cbn. rewrite length_app. cbn. lia. }
  split.
  - rewrite (deref_prefix _ _ _ Hp Hlt). apply deref_copied.
  - apply prefix_length in Hp. lia.
Qed.

Lemma interpret_Function fuel parameters value location env st :
  interpret (S fuel) (t.Function parameters value location) env st
  = (Ret (VClosure {| Closure.body := value;
                      Closure.env := env;
                      Closure.parameters := map t.text parameters |}), st).
Proof. reflexivity. Qed.

(** C1 (as the code has it): [Let] evaluates the bound expression in a
    fresh copy of the current environment, made before the name is bound,
    and then adds the name to that copy in place.  So while the bound
    expression is being evaluated the copy still equals the enclosing
    environment: a direct reference to the name yields the enclosing
    binding of the name when there is one; when there is none it fails
    with UnboundVariable, provided the name is not one that every record
    inherits.  A closure made by a [Function] literal that is the bound
    expression captures the copy itself, and after the binding that copy
    maps the name to the closure: the let-bound function can call itself
    by name.  All of this holds for every name but [__proto__]. *)
Theorem Let_binds_in_place fuel name next location env st :
  t.text name ≠ "__proto__" ->
  (∀ value v st2,
     interpret fuel value (length (envs st)) (copied env st) = (Ret v, st2) ->
     deref st2 (length (envs st)) = deref st env
     ∧ interpret (S fuel) (t.Let name value next location) env st
       = interpret fuel next (length (envs st))
           (assigned (length (envs st)) (t.text name) v st2)
     ∧ deref (assigned (length (envs st)) (t.text name) v st2) (length (envs st))
       = <[t.text name := v]> (deref st env))
  ∧ (∀ location',
       match deref st env !! t.text name with
       | Some v =>
           interpret (S (S fuel))
             (t.Let name (t.Var (t.text name) location') next location) env st
           = interpret (S fuel) next (length (envs st))
               (assigned (length (envs st)) (t.text name) v (copied env st))
       | None =>
           t.text name ∉ inherited ->
           interpret (S (S fuel))
             (t.Let name (t.Var (t.text name) location') next location) env st
           = (Throw (UnboundVariable (t.text name)), copied env st)
       end)
  ∧ (∀ parameters body location',
       let closure := {| Closure.body := body;
                         Closure.env := length (envs st);
                         Closure.parameters := map t.text parameters |} in
       interpret (S (S fuel))
         (t.Let name (t.Function parameters body location') next location) env st
       = interpret (S fuel) next (length (envs st))
           (assigned (length (envs st)) (t.text name) (VClosure closure)
              (copied env st))
       ∧ deref (assigned (length (envs st)) (t.text name) (VClosure closure)
                  (copied env st)) (Closure.env closure) !! t.text name
         = Some (VClosure closure)).
Proof.
  intros Hproto. split; [|split].
  - intros value v st2 Hv.
    destruct (interpret_Let_value _ _ _ _ _ _ Hv) as [Hd Hlt].
    split; [exact Hd|]. split; [now apply interpret_Let|].
    now rewrite deref_assigned, Hd.
  - intros location'.
    assert (Hvar : interpret (S fuel) (t.Var (t.text name) location')
                     (length (envs st)) (copied env st)
                   = getObject (length (envs st)) (t.text name) (copied env st))
      by reflexivity.
    unfold getObject in Hvar. rewrite deref_copied in Hvar.
    destruct (deref st env !! t.text name) as [v|] eqn:Hlook.
    + now apply interpret_Let.
    + intros Hname. rewrite bool_decide_eq_false_2 in Hvar by exact Hname.
      cbn [interpret]. unfold bind at 1. rewrite cloneEnv_spec.
      fold (copied env st). now rewrite (bind_Throw _ _ _ _ _ Hvar).
  - intros parameters body location' closure. split.
    + apply interpret_Let; [exact Hproto|]. apply interpret_Function.
    + cbn [Closure.env closure]. rewrite deref_assigned.
      * apply lookup_insert_eq.
      * unfold copied. cbn. rewrite length_app. cbn. lia.
Qed.

Lemma Let_binds_in_place_witness :
  "f" ≠ "__proto__"
  ∧ interpret 4 selfReturning 0%nat initial
    = interpret 3 (t.Call (t.Var "f" nowhere) [] nowhere) 1%nat
        (assigned 1%nat "f"
           (VClosure {| Closure.body := t.Var "f" nowhere;
                        Closure.env := 1%nat;
                        Closure.parameters := [] |})
           (copied 0%nat initial)).
Proof.
  assert (H : "f" ≠ "__proto__") by discriminate.
  split; [exact H|].
  apply (Let_binds_in_place 2 (parameter "f")
           (t.Call (t.Var "f" nowhere) [] nowhere) nowhere 0%nat initial H).
Defined.

(** C1 as stated fails.  The let-bound function [sum] calls itself by
    name and the program returns 6; and in [let x = x + 1] the reference
    to [x] inside the bound expression yields the enclosing [x]. *)
Lemma let_bound_function_calls_itself :
  (interpretFile 20 (file sumTo)).1 = Ret (VNumber 6)
  ∧ (interpretFile 20 (file sumTo)).1 ≠ Throw (UnboundVariable "sum")
  ∧ (interpretFile 4 (file shadowing)).1 = Ret (VNumber 2).
Proof.
  split; [vm_compute; reflexivity|].
  split; [vm_compute; discriminate|vm_compute; reflexivity].
Qed.

(** The name of the function may be one that every record inherits. *)
Example let_bound_toString_calls_itself :
  (interpretFile 20 (file sumToString)).1 = Ret (VNumber 6).
Proof. vm_compute. reflexivity. Qed.

(** A closure created under a nested [Let] captures that inner copy, which
    never receives the outer name. *)
Example capturedInside_unbound :
  (interpretFile 4 (file capturedInside)).1 = Throw (UnboundVariable "f").
Proof. vm_compute. reflexivity. Qed.

(** C2 (as the code has it): evaluating a term never changes an
    environment that existed when that evaluation began; it only adds
    fresh environments to the store, so bindings made by later [Let]s and
    by calls leave a captured environment as it is.  The one update in
    place is made by [Let]: once the bound expression is evaluated, the
    name is added to the copy in which it was evaluated, and to no other
    environment.  A closure made by a [Function] literal that is the bound
    expression captured that copy, so what its body sees at call time is
    the mapping at capture time with the let's own name added. *)
Theorem evaluation_keeps_existing_environments :
  (∀ fuel term env st,
     envs st `prefix_of` envs (interpret fuel term env st).2)
  ∧ (∀ fuel name value next location env st v st2,
       t.text name ≠ "__proto__" ->
       interpret fuel value (length (envs st)) (copied env st) = (Ret v, st2) ->
       let st3 := assigned (length (envs st)) (t.text name) v st2 in
       interpret (S fuel) (t.Let name value next location) env st
       = interpret fuel next (length (envs st)) st3
       ∧ envs (copied env st) `prefix_of` envs st2
       ∧ deref st3 (length (envs st)) = <[t.text name := v]> (deref st env)
       ∧ ∀ other, other ≠ length (envs st) -> envs st3 !! other = envs st2 !! other)
  ∧ (∀ fuel name parameters body next location location' env st,
       t.text name ≠ "__proto__" ->
       let closure := {| Closure.body := body;
                         Closure.env := length (envs st);
                         Closure.parameters := map t.text parameters |} in
       let st3 := assigned (length (envs st)) (t.text name) (VClosure closure)
                    (copied env st) in
       interpret (S fuel) (t.Function parameters body location')
         (length (envs st)) (copied env st)
       = (Ret (VClosure closure), copied env st)
       ∧ deref (copied env st) (Closure.env closure) = deref st env
       ∧ interpret (S (S fuel))
           (t.Let name (t.Function parameters body location') next location)
           env st
         = interpret (S fuel) next (length (envs st)) st3
       ∧ deref st3 (Closure.env closure)
         = <[t.text name := VClosure closure]> (deref st env)).
Proof.
  split; [intros fuel; apply interpret_prefix|]. split.
  - intros fuel name value next location env st v st2 Hproto Hv st3.
    destruct (interpret_Let_value _ _ _ _ _ _ Hv) as [Hd Hlt].
    split; [now apply interpret_Let|]. split; [|split].
    + pose proof (interpret_prefix fuel value (length (envs st)) (copied env st))
        as Hp. now rewrite Hv in Hp.
    + unfold st3. now rewrite deref_assigned, Hd.
    + intros other Hother. unfold st3, assigned. cbn [envs].
      now apply list_lookup_insert_ne.
  - intros fuel name parameters body next location location' env st Hproto
      closure st3.
    assert (Hlt : (length (envs st) < length (envs (copied env st)))%nat).
    { unfold copied. cbn. rewrite length_app. cbn. lia. }
    split; [reflexivity|]. split; [apply deref_copied|]. split.
    + apply interpret_Let; [exact Hproto|reflexivity].
    + unfold st3. cbn [Closure.env closure].
      now rewrite deref_assigned, deref_copied.
Qed.

(** C2 as stated fails.  In [let f = fn () => { f }; f()] the closure is
    created when its environment has no binding of [f]; when it is
    called, the very same environment maps [f] to the closure, and the
    body returns it instead of failing. *)
Lemma captured_environment_changes :
  let closure := {| Closure.body := t.Var "f" nowhere;
                    Closure.env := 1%nat;
                    Closure.parameters := [] |} in
  let atCapture := copied 0%nat initial in
  let atCall := assigned 1%nat "f" (VClosure closure) atCapture in
  interpret 1 (t.Function [] (t.Var "f" nowhere) nowhere) 1%nat atCapture
  = (Ret (VClosure closure), atCapture)
  ∧ interpretFile 4 (file selfReturning)
    = interpret 3 (t.Call (t.Var "f" nowhere) [] nowhere) 1%nat atCall
  ∧ deref atCapture (Closure.env closure) !! "f" = None
  ∧ deref atCall (Closure.env closure) !! "f" = Some (VClosure closure)
  ∧ deref atCapture (Closure.env closure) ≠ deref atCall (Closure.env closure)
  ∧ (interpretFile 4 (file selfReturning)).1 = Ret (VClosure closure).
Proof.
  cbv zeta. split; [reflexivity|]. split; [reflexivity|].
  split; [reflexivity|]. split; [reflexivity|]. split; [|reflexivity].
  intros H. apply (f_equal (fun objects => objects !! "f")) in H.
  vm_compute in H. discriminate H.
Qed.

Lemma evaluation_keeps_existing_environments_witness :
  envs initial `prefix_of` envs (interpretFile 20 (file sumTo)).2
  ∧ "f" ≠ "__proto__"
  ∧ deref
      (assigned 1%nat "f"
         (VClosure {| Closure.body := t.Var "f" nowhere;
                      Closure.env := 1%nat;
                      Closure.parameters := [] |})
         (copied 0%nat initial)) 1%nat
    = <["f" := VClosure {| Closure.body := t.Var "f" nowhere;
                           Closure.env := 1%nat;
                           Closure.parameters := [] |}]> (deref initial 0%nat).
Proof.
  destruct evaluation_keeps_existing_environments as (Hkeep & _ & Hfun).
  split; [apply Hkeep|].
  assert (Hproto : "f" ≠ "__proto__") by discriminate.
  split; [exact Hproto|].
  apply (Hfun 0%nat (parameter "f") [] (t.Var "f" nowhere)
           (t.Call (t.Var "f" nowhere) [] nowhere) nowhere nowhere 0%nat
           initial Hproto).
Defined.

(** ** End-to-end runs *)

Example captureBeforeShadowing_run :
  (interpretFile 6 (file captureBeforeShadowing)).1 = Ret (VNumber 3).
Proof. vm_compute. reflexivity. Qed.

Example argumentInCaller_run :
  (interpretFile 5 (file argumentInCaller)).1 = Ret (VNumber 101).
Proof. vm_compute. reflexivity. Qed.

Example oneArgumentForTwo_run :
  (interpretFile 2 (file oneArgumentForTwo)).1 = Throw (ArityMismatch 2 1)
  ∧ message (ArityMismatch 2 1) = "expected 2 arguments but instead got 1".
Proof. split; vm_compute; reflexivity. Qed.

Example print_concatenation_run :
  interpretFile 3
    (file (t.Print (t.Binary (t.Str "a" nowhere) t.Add (t.Int 1 nowhere) nowhere)
             nowhere))
  = (Ret (VString "a1"), {| envs := envs initial; stdout := ["a1"] |}).
Proof. vm_compute. reflexivity. Qed.

Example projections_run :
  (interpretFile 3
     (file (t.First (t.Tuple (t.Int 1 nowhere) (t.Int 2 nowhere) nowhere) nowhere))).1
  = Ret (VNumber 1)
  ∧ (interpretFile 3
       (file (t.Second (t.Tuple (t.Int 1 nowhere) (t.Int 2 nowhere) nowhere)
                nowhere))).1
    = Ret (VNumber 2)
  ∧ (interpretFile 2 (file (t.First (t.Int 1 nowhere) nowhere))).1
    = Throw (TypeMismatch "tuple").
Proof. repeat split; vm_compute; reflexivity. Qed.

Example unbound_run :
  (interpretFile 1 (file (t.Var "y" nowhere))).1 = Throw (UnboundVariable "y")
  ∧ message (UnboundVariable "y") = "cannot find variable y".
Proof. split; vm_compute; reflexivity. Qed.

Example sumTo_with_more_fuel (fuel : nat) :
  (20 <= fuel)%nat -> (interpretFile fuel (file sumTo)).1 = Ret (VNumber 6).
Proof.
  intros Hfuel. unfold interpretFile.
  destruct (interpret 20 (t.expression (file sumTo)) 0%nat initial)
    as [o st'] eqn:Hrun.
  assert (Ho : o = Ret (VNumber 6)).
  { pose proof (f_equal Datatypes.fst Hrun) as Hfst. vm_compute in Hfst.
    congruence. }
  subst o.
  rewrite (interpret_fuel_le 20 fuel _ _ _ _ _ Hfuel Hrun ltac:(discriminate)).
  reflexivity.
Qed.

(** * Further properties *)

(** ** Operators *)

(** [Sub], [Mul], [Div], [Rem], [Lt], [Gt], [Lte] and [Gte] throw exactly
    when an operand is not a number, and the error is then "not a int". *)
Theorem numeric_operators_demand_numbers (left right : Value) (op : t.BinaryOp) :
  numeric op = true ->
  ((∃ e, interpretBinary left right op = Throw e)
   ↔ kind left ≠ "number" ∨ kind right ≠ "number")
  ∧ (∀ e, interpretBinary left right op = Throw e -> e = TypeMismatch "int")
  ∧ message (TypeMismatch "int") = "not a int".
Proof.
  intros Hop. split; [|split; [|reflexivity]].
  - split.
    + intros [e He].
      destruct left as [| |a| |]; try (left; discriminate).
      destruct right as [| |b| |]; try (right; discriminate).
      exfalso. destruct op; try discriminate Hop; discriminate He.
    + intros [Hk|Hk].
      * exists (TypeMismatch "int").
        destruct left; try (now contradict Hk);
          destruct op; try discriminate Hop; reflexivity.
      * exists (TypeMismatch "int").
        destruct right; try (now contradict Hk);
          destruct left, op; try discriminate Hop; reflexivity.
  - intros e He.
    destruct op; try discriminate Hop;
      destruct left as [| |a| |]; try (cbn in He; congruence);
      destruct right as [| |b| |]; try (cbn in He; congruence);
      discriminate He.
Qed.

Lemma numeric_operators_demand_numbers_witness :
  numeric t.Sub = true
  ∧ ((∃ e, interpretBinary (VString "a") (VNumber 1) t.Sub = Throw e)
     ↔ kind (VString "a") ≠ "number" ∨ kind (VNumber 1) ≠ "number").
Proof.
  split; [reflexivity|].
  apply (numeric_operators_demand_numbers (VString "a") (VNumber 1) t.Sub eq_refl).
Defined.

(** The kind of a result depends on the operator only, except for [Add]:
    arithmetic gives a number, comparison, equality, [And] and [Or] give a
    boolean, [Add] gives a number for two numbers and a string otherwise. *)
Theorem operator_result_kind left right op value :
  interpretBinary left right op = Ret value ->
  kind value = resultKind op left right.
Proof.
  intros H.
  destruct op, left as [| |a| |], right as [| |b| |]; cbn in H;
    try discriminate H; injection H as <-; reflexivity.
Qed.

Lemma operator_result_kind_witness :
  interpretBinary (VNumber 1) (VString "a") t.Add = Ret (VString "1a")
  ∧ kind (VString "1a") = resultKind t.Add (VNumber 1) (VString "a").
Proof.
  split; [reflexivity|].
  apply (operator_result_kind (VNumber 1) (VString "a") t.Add (VString "1a")).
  reflexivity.
Defined.

Lemma order_exchanged (a b : number) :
  Number.order b a = CompOpp <$> Number.order a b.
Proof.
  destruct a as [x| | | |], b as [y| | | |]; cbn -[Z.compare];
    try reflexivity; f_equal; apply Z.compare_antisym.
Qed.

Lemma order_defined (a b : number) :
  a ≠ NaN -> b ≠ NaN -> ∃ c, Number.order a b = Some c.
Proof.
  intros Ha Hb. destruct a, b; cbn; try (now contradict Ha);
    try (now contradict Hb); eauto.
Qed.

(** On numbers other than NaN the four comparisons and [Eq] agree with
    each other: [Gt] is [Lt] with the operands exchanged, [Lte] is the
    negation of [Gt], [Gte] the negation of [Lt], [Eq] holds when both
    [Lte] and [Gte] do, exactly one of [Lt], [Eq], [Gt] holds, and on
    integers [Lt] is the order of the integers.  With NaN as an operand
    all five answer false. *)
Theorem comparisons_cohere (a b : number) :
  (a ≠ NaN -> b ≠ NaN ->
   ∃ lt gt eq : bool,
     interpretBinary (VNumber a) (VNumber b) t.Lt = Ret (VBoolean lt)
     ∧ interpretBinary (VNumber a) (VNumber b) t.Gt = Ret (VBoolean gt)
     ∧ interpretBinary (VNumber a) (VNumber b) t.Eq = Ret (VBoolean eq)
     ∧ interpretBinary (VNumber b) (VNumber a) t.Gt = Ret (VBoolean lt)
     ∧ interpretBinary (VNumber b) (VNumber a) t.Lt = Ret (VBoolean gt)
     ∧ interpretBinary (VNumber a) (VNumber b) t.Lte = Ret (VBoolean (negb gt))
     ∧ interpretBinary (VNumber a) (VNumber b) t.Gte = Ret (VBoolean (negb lt))
     ∧ eq = negb gt && negb lt
     ∧ (∀ x y : Z, a = Finite x -> b = Finite y -> (lt = true ↔ x < y))
     ∧ (lt, eq, gt) ∈ [(true, false, false); (false, true, false);
                       (false, false, true)])
  ∧ (∀ op, op ∈ [t.Lt; t.Gt; t.Lte; t.Gte; t.Eq] ->
       interpretBinary (VNumber NaN) (VNumber a) op = Ret (VBoolean false)
       ∧ interpretBinary (VNumber a) (VNumber NaN) op = Ret (VBoolean false)).
Proof.
  split.
  - intros Ha Hb. destruct (order_defined a b Ha Hb) as [c Hc].
    pose proof (order_exchanged a b) as Hx. rewrite Hc in Hx. cbn in Hx.
    exists (Number.less a b), (Number.less b a), (Number.equal a b).
    unfold interpretBinary, assertInt, obind, isEqual, Number.greater,
      Number.greaterOrEqual, Number.lessOrEqual, Number.less, Number.equal.
    rewrite Hc, Hx.
    repeat split; try (destruct c; reflexivity).
    + intros Hlt. subst a b. cbn in Hc. injection Hc as <-.
      apply Z.compare_lt_iff. clear Hx.
      destruct (x ?= y) eqn:E; [discriminate|exact E|discriminate].
    + intros Hlt. subst a b. cbn in Hc. injection Hc as <-.
      apply Z.compare_lt_iff in Hlt. now rewrite Hlt.
    + destruct c; cbn; set_solver.
  - intros op Hop.
    repeat (apply elem_of_cons in Hop as [->|Hop]);
      [..|now apply elem_of_nil in Hop];
      destruct a; split; reflexivity.
Qed.

Lemma comparisons_cohere_witness :
  Finite 5 ≠ NaN ∧ NegInfinity ≠ NaN
  ∧ interpretBinary (VNumber 5) (VNumber NegInfinity) t.Gte = Ret (VBoolean true)
  ∧ interpretBinary (VNumber NaN) (VNumber 5) t.Gte = Ret (VBoolean false).
Proof.
  assert (Ha : Finite 5 ≠ NaN) by discriminate.
  assert (Hb : NegInfinity ≠ NaN) by discriminate.
  split; [exact Ha|]. split; [exact Hb|].
  destruct (comparisons_cohere 5 NegInfinity) as [Hord Hnan].
  destruct (Hord Ha Hb) as (lt & gt & eq & Hlt & _ & _ & _ & _ & _ & Hgte & _).
  split.
  - rewrite Hgte. injection Hlt as <-. reflexivity.
  - apply (Hnan t.Gte). repeat constructor.
Defined.

(** ** Output *)

Lemma framed_lift {A} (o : outcome A) : outputFramed (lift o).
Proof. now intros st out. Qed.

Lemma framed_bind {A B} (m : M A) (k : A -> M B) :
  outputFramed m -> (∀ a, outputFramed (k a)) -> outputFramed (bind m k).
Proof.
  intros Hm Hk st out. unfold bind. rewrite Hm.
  destruct (m st) as [[a|e|l] st1]; cbn [fst snd]; [apply Hk|reflexivity..].
Qed.

Lemma framed_cloneEnv env : outputFramed (cloneEnv env).
Proof. now intros st out. Qed.

Lemma framed_setObject env name value : outputFramed (setObject env name value).
Proof. intros st out. unfold setObject. now case_bool_decide. Qed.

Lemma framed_getObject env text : outputFramed (getObject env text).
Proof.
  intros st out. unfold getObject.
  change (deref (withOutput out st) env) with (deref st env).
  destruct (deref st env !! text); [reflexivity|]. now case_bool_decide.
Qed.

Lemma framed_console_log line : outputFramed (console_log line).
Proof.
  intros st out. unfold console_log, withOutput. cbn. now rewrite app_assoc.
Qed.

Lemma framed_bindArguments (interp : t.Term -> ref -> M Value)
    parameters arguments env functionEnv :
  (∀ term env, outputFramed (interp term env)) ->
  outputFramed (bindArguments interp parameters arguments env functionEnv).
Proof.
  intros Hi. revert arguments.
  induction parameters as [|parameter parameters IH];
    intros [|argument arguments]; try apply (framed_lift (Ret tt)).
  cbn [bindArguments]. apply framed_bind; [apply Hi|intros value].
  apply framed_bind; [apply framed_setObject|intros _]. apply IH.
Qed.

Lemma interpret_framed fuel : ∀ term env, outputFramed (interpret fuel term env).
Proof.
  induction fuel as [|fuel IH]; intros term env.
  - apply framed_lift.
  - destruct term; cbn [interpret]; unfold ret, throw, stop;
      repeat first
        [ apply IH
        | apply framed_lift
        | apply framed_getObject
        | apply framed_console_log
        | apply framed_setObject
        | apply framed_cloneEnv
        | apply framed_bindArguments; intros ? ?
        | apply framed_bind; [|intros ?]
        | case_bool_decide ].
Qed.

(** The interpreter never reads or rewrites its output.  Run after some
    lines [out] were written, a term gives the same outcome and the same
    store as without them, and its own lines follow [out]; so the output
    of a state is a prefix of the output after any evaluation. *)
Theorem output_is_append_only fuel term env st :
  (∀ out,
     interpret fuel term env (withOutput out st)
     = ((interpret fuel term env st).1,
        withOutput out (interpret fuel term env st).2))
  ∧ stdout st `prefix_of` stdout (interpret fuel term env st).2.
Proof.
  split; [intros out; apply interpret_framed|].
  pose proof (interpret_framed fuel term env
                {| envs := envs st; stdout := [] |} (stdout st)) as H.
  assert (Hst : withOutput (stdout st) {| envs := envs st; stdout := [] |} = st).
  { destruct st as [E out]. unfold withOutput. cbn. now rewrite app_nil_r. }
  rewrite Hst in H. rewrite H. cbn. now apply prefix_app_r.
Qed.

(** [Print] returns the value of its operand unchanged and writes exactly
    one line, the display text of that value, after the lines the operand
    wrote; when the operand fails nothing more is written. *)
Theorem Print_writes_one_line fuel value location env st o st' :
  interpret fuel value env st = (o, st') ->
  interpret (S fuel) (t.Print value location) env st
  = match o with
    | Ret v => (Ret v, {| envs := envs st';
                          stdout := stdout st' ++ [showValue v] |})
    | _ => (o, st')
    end.
Proof.
  intros H. cbn [interpret]. unfold bind at 1. rewrite H. now destruct o.
Qed.

Lemma Print_writes_one_line_witness :
  interpret 3 (t.Print (t.Tuple (t.Int (-1) nowhere) (t.Bool true nowhere) nowhere)
                 nowhere) 0%nat initial
  = (Ret (VTuple (VNumber (-1)) (VBoolean true)),
     {| envs := envs initial; stdout := ["(-1,true)"] |}).
Proof.
  exact (Print_writes_one_line 2
           (t.Tuple (t.Int (-1) nowhere) (t.Bool true nowhere) nowhere)
           nowhere 0%nat initial
           (Ret (VTuple (VNumber (-1)) (VBoolean true))) initial eq_refl).
Defined.

(** ** Errors *)

(** An error thrown by a subterm is the result of the node, and nothing
    after the failing subterm is evaluated: the state is the one the
    subterm left.  This holds for the subterm a node evaluates first, for
    the second component of a [Tuple] and the right operand of a [Binary],
    and for the bound expression of a [Let]. *)
Theorem errors_abort_the_node fuel env st e st' :
  (∀ term child,
     evaluatedFirst term = Some child ->
     interpret fuel child env st = (Throw e, st') ->
     interpret (S fuel) term env st = (Throw e, st'))
  ∧ (∀ first second location v st1,
       interpret fuel first env st = (Ret v, st1) ->
       interpret fuel second env st1 = (Throw e, st') ->
       interpret (S fuel) (t.Tuple first second location) env st
       = (Throw e, st')
       ∧ ∀ op, interpret (S fuel) (t.Binary first op second location) env st
               = (Throw e, st'))
  ∧ (∀ name value next location,
       interpret fuel value (length (envs st)) (copied env st) = (Throw e, st') ->
       interpret (S fuel) (t.Let name value next location) env st
       = (Throw e, st')).
Proof.
  split; [|split].
  - intros term child Hfirst Hc.
    destruct term; cbn in Hfirst; try discriminate Hfirst;
      injection Hfirst as ->; cbn [interpret];
      now rewrite (bind_Throw _ _ _ _ _ Hc).
  - intros first second location v st1 H1 H2. split; [|intros op];
      cbn [interpret]; rewrite (bind_Ret _ _ _ _ _ H1);
      now rewrite (bind_Throw _ _ _ _ _ H2).
  - intros name value next location Hv. cbn [interpret]. unfold bind at 1.
    rewrite cloneEnv_spec. now rewrite (bind_Throw _ _ _ _ _ Hv).
Qed.

Lemma errors_abort_the_node_witness :
  interpret 3
    (t.Tuple (t.Print (t.Int 1 nowhere) nowhere)
       (t.First (t.Int 2 nowhere) nowhere) nowhere) 0%nat initial
  = (Throw (TypeMismatch "tuple"),
     {| envs := envs initial; stdout := ["1"] |}).
Proof.
  refine (proj1 (proj1 (proj2 (errors_abort_the_node 2 0%nat initial
                                 (TypeMismatch "tuple")
                                 {| envs := envs initial; stdout := ["1"] |}))
                   (t.Print (t.Int 1 nowhere) nowhere)
                   (t.First (t.Int 2 nowhere) nowhere) nowhere (VNumber 1)
                   {| envs := envs initial; stdout := ["1"] |}
                   eq_refl eq_refl)).
Defined.

Lemma evaluated_bindArguments_app fuel env functionEnv parameters1 arguments1
    st values st2 parameters2 arguments2 :
  evaluatedInCaller fuel env functionEnv parameters1 arguments1 st values st2 ->
  bindArguments (interpret fuel) (parameters1 ++ parameters2)%list
    (arguments1 ++ arguments2)%list env functionEnv st
  = bindArguments (interpret fuel) parameters2 arguments2 env functionEnv st2.
Proof.
  induction 1 as [|? ? ? ? ? ? ? ? ? ? Ha Hs _ IH]; [reflexivity|].
  cbn [app bindArguments]. rewrite (bind_Ret _ _ _ _ _ Ha).
  now rewrite (bind_Ret _ _ _ _ _ Hs).
Qed.

(** When an argument of a call throws, the call throws that error in the
    state the argument left: the arguments after it and the body are not
    evaluated. *)
Theorem Call_argument_error fuel callee arguments location env st closure st1
    parameters1 parameter parameters2 arguments1 argument arguments2
    values st2 e st3 :
  interpret fuel callee env st = (Ret (VClosure closure), st1) ->
  Closure.parameters closure = (parameters1 ++ parameter :: parameters2)%list ->
  arguments = (arguments1 ++ argument :: arguments2)%list ->
  length parameters2 = length arguments2 ->
  evaluatedInCaller fuel env (length (envs st1)) parameters1 arguments1
    (copied (Closure.env closure) st1) values st2 ->
  interpret fuel argument env st2 = (Throw e, st3) ->
  interpret (S fuel) (t.Call callee arguments location) env st = (Throw e, st3).
Proof.
  intros Hc Hp -> Hlen He Ha.
  destruct (evaluated_lengths _ _ _ _ _ He) as [Hlen1 _].
  cbn [interpret]. rewrite (bind_Ret _ _ _ _ _ Hc).
  unfold bind at 1, lift, assertClosure.
  rewrite bool_decide_eq_false_2.
  2:{ intros Hn. apply Hn. rewrite Hp, !length_app. cbn. lia. }
  unfold bind at 1. rewrite cloneEnv_spec, Hp.
  unfold bind at 1. rewrite (evaluated_bindArguments_app _ _ _ _ _ _ _ _ _ _ He).
  cbn [bindArguments]. now rewrite (bind_Throw _ _ _ _ _ Ha).
Qed.

Lemma Call_argument_error_witness :
  interpret 3
    (t.Call (t.Function [parameter "a"; parameter "b"] (t.Var "a" nowhere) nowhere)
       [t.Int 1 nowhere; t.Var "z" nowhere] nowhere) 0%nat initial
  = (Throw (UnboundVariable "z"),
     {| envs := [ {| objects := ∅ |}; {| objects := <["a" := VNumber 1]> ∅ |} ];
        stdout := [] |}).
Proof.
  eapply (Call_argument_error 2 _ _ nowhere 0%nat initial
            {| Closure.body := t.Var "a" nowhere;
               Closure.parameters := ["a"; "b"];
               Closure.env := 0%nat |} initial
            ["a"] "b" [] [t.Int 1 nowhere] (t.Var "z" nowhere) []
            [VNumber 1]).
  - reflexivity.
  - reflexivity.
  - reflexivity.
  - reflexivity.
  - eapply evaluated_cons; [reflexivity|reflexivity|apply evaluated_nil].
  - reflexivity.
Defined.

(** ** Pairs *)

(** [First] and [Second] of a [Tuple] node return the value of the first
    and of the second component; both components are evaluated, first
    then second, whichever one is projected. *)
Theorem projections_of_a_pair fuel first second location location' env st
    v1 st1 v2 st2 :
  interpret fuel first env st = (Ret v1, st1) ->
  interpret fuel second env st1 = (Ret v2, st2) ->
  interpret (S (S fuel)) (t.First (t.Tuple first second location) location') env st
  = (Ret v1, st2)
  ∧ interpret (S (S fuel)) (t.Second (t.Tuple first second location) location')
      env st
    = (Ret v2, st2).
Proof.
  intros H1 H2.
  assert (Ht : interpret (S fuel) (t.Tuple first second location) env st
               = (Ret (VTuple v1 v2), st2)).
  { cbn [interpret]. rewrite (bind_Ret _ _ _ _ _ H1).
    now rewrite (bind_Ret _ _ _ _ _ H2). }
  split.
  - change (interpret (S (S fuel)) (t.First ?value location') env st)
      with ((fst <- interpret (S fuel) value env ;;
             pair <- lift (assertTuple fst) ;; ret (pair.1)) st).
    now rewrite (bind_Ret _ _ _ _ _ Ht).
  - change (interpret (S (S fuel)) (t.Second ?value location') env st)
      with ((fst <- interpret (S fuel) value env ;;
             pair <- lift (assertTuple fst) ;; ret (pair.2)) st).
    now rewrite (bind_Ret _ _ _ _ _ Ht).
Qed.

Lemma projections_of_a_pair_witness :
  interpret 4
    (t.First (t.Tuple (t.Int 1 nowhere) (t.Print (t.Int 2 nowhere) nowhere)
                nowhere) nowhere) 0%nat initial
  = (Ret (VNumber 1), {| envs := envs initial; stdout := ["2"] |}).
Proof.
  refine (proj1 (projections_of_a_pair 2 (t.Int 1 nowhere)
                   (t.Print (t.Int 2 nowhere) nowhere) nowhere nowhere 0%nat
                   initial (VNumber 1) initial (VNumber 2)
                   {| envs := envs initial; stdout := ["2"] |}
                   eq_refl eq_refl)).
Defined.

(** [First] and [Second] of anything that is not a pair fail with
    "not a tuple". *)
Theorem projections_demand_a_pair fuel value location env st v st' :
  interpret fuel value env st = (Ret v, st') ->
  kind v ≠ "tuple" ->
  interpret (S fuel) (t.First value location) env st
  = (Throw (TypeMismatch "tuple"), st')
  ∧ interpret (S fuel) (t.Second value location) env st
    = (Throw (TypeMismatch "tuple"), st')
  ∧ message (TypeMismatch "tuple") = "not a tuple".
Proof.
  intros H Hk. cbn [interpret]. rewrite !(bind_Ret _ _ _ _ _ H).
  destruct v; try (now contradict Hk); repeat split.
Qed.

Lemma projections_demand_a_pair_witness :
  interpret 2 (t.Second (t.Str "ab" nowhere) nowhere) 0%nat initial
  = (Throw (TypeMismatch "tuple"), initial).
Proof.
  refine (proj1 (proj2 (projections_demand_a_pair 1 (t.Str "ab" nowhere) nowhere
                          0%nat initial (VString "ab") initial eq_refl _))).
  discriminate.
Defined.

(** ** Scope of bindings *)

Lemma getObject_deref env text st st' :
  deref st' env = deref st env ->
  (getObject env text st').1 = (getObject env text st).1.
Proof.
  intros H. unfold getObject. rewrite H.
  destruct (deref st env !! text); [reflexivity|]. now case_bool_decide.
Qed.

(** Bindings made while a term is evaluated are not visible after it: in
    the environment in which the term was evaluated, every variable
    resolves after the evaluation as it did before, whatever [Let]s and
    calls the term contains and whether it succeeded or failed. *)
Theorem bindings_are_scoped fuel term env st text location :
  (env < length (envs st))%nat ->
  (interpret 1 (t.Var text location) env (interpret fuel term env st).2).1
  = (interpret 1 (t.Var text location) env st).1.
Proof.
  intros Henv. cbn [interpret]. apply getObject_deref.
  apply deref_prefix; [apply interpret_prefix|exact Henv].
Qed.

Lemma bindings_are_scoped_witness :
  (0 < length (envs initial))%nat
  ∧ (interpret 1 (t.Var "x" nowhere) 0%nat
       (interpret 4 shadowing 0%nat initial).2).1
    = Throw (UnboundVariable "x").
Proof.
  assert (H : (0 < length (envs initial))%nat) by (cbn; lia).
  split; [exact H|].
  exact (bindings_are_scoped 4 shadowing 0%nat initial "x" nowhere H).
Defined.

(** In the body of a [Let] the bound name resolves to the value of the
    bound expression, also when an enclosing binding of that name exists,
    and every other name resolves as it does outside the [Let]. *)
Theorem Let_then_Var fuel name value location location' env st v st2 :
  t.text name ≠ "__proto__" ->
  interpret (S fuel) value (length (envs st)) (copied env st) = (Ret v, st2) ->
  interpret (S (S fuel))
    (t.Let name value (t.Var (t.text name) location') location) env st
  = (Ret v, assigned (length (envs st)) (t.text name) v st2)
  ∧ ∀ other,
      other ≠ t.text name ->
      (interpret (S (S fuel))
         (t.Let name value (t.Var other location') location) env st).1
      = (interpret 1 (t.Var other location') env st).1.
Proof.
  intros Hproto Hv.
  destruct (interpret_Let_value _ _ _ _ _ _ Hv) as [Hd Hlt].
  assert (Hnew : deref (assigned (length (envs st)) (t.text name) v st2)
                   (length (envs st))
                 = <[t.text name := v]> (deref st env))
    by now rewrite deref_assigned, Hd.
  split.
  - rewrite (interpret_Let _ _ _ _ _ _ _ _ _ Hproto Hv).
    cbn [interpret]. unfold getObject. rewrite Hnew.
    now rewrite lookup_insert_eq.
  - intros other Hother.
    rewrite (interpret_Let _ _ _ _ _ _ _ _ _ Hproto Hv).
    cbn [interpret]. unfold getObject. rewrite Hnew.
    rewrite lookup_insert_ne by congruence.
    destruct (deref st env !! other); [reflexivity|]. now case_bool_decide.
Qed.

Lemma Let_then_Var_witness :
  "x" ≠ "__proto__"
  ∧ (interpret 2
       (t.Let (parameter "x") (t.Int 7 nowhere) (t.Var "x" nowhere) nowhere)
       0%nat initial).1
    = Ret (VNumber 7).
Proof.
  assert (H : "x" ≠ "__proto__") by discriminate.
  split; [exact H|].
  exact (f_equal Datatypes.fst
           (proj1 (Let_then_Var 0 (parameter "x") (t.Int 7 nowhere) nowhere
                     nowhere 0%nat initial (VNumber 7) (copied 0%nat initial)
                     H eq_refl))).
Defined.

(** [cloneEnv] makes a separate object.  The clone starts with the
    bindings of the original; an assignment to the clone is read back
    from the clone and leaves the original, like every environment that
    existed before, as it was. *)
Theorem clone_is_a_separate_object env name value st :
  name ≠ "__proto__" ->
  (env < length (envs st))%nat ->
  ∃ st',
    (newEnv <- cloneEnv env ;; setObject newEnv name value ;;; ret newEnv) st
    = (Ret (length (envs st)), st')
    ∧ deref (cloneEnv env st).2 (length (envs st)) = deref st env
    ∧ deref st' (length (envs st)) = <[name := value]> (deref st env)
    ∧ deref st' env = deref st env
    ∧ envs st `prefix_of` envs st'.
Proof.
  intros Hproto Henv.
  exists (assigned (length (envs st)) name value (copied env st)).
  assert (Hlt : (length (envs st) < length (envs (copied env st)))%nat).
  { unfold copied. cbn. rewrite length_app. cbn. lia. }
  assert (Hp : envs st `prefix_of`
               envs (assigned (length (envs st)) name value (copied env st))).
  { unfold assigned, copied. cbn [envs]. apply prefix_insert_ge; [|lia].
    now apply prefix_app_r. }
  split; [|split; [|split; [|split]]].
  - unfold bind at 1. rewrite cloneEnv_spec. unfold bind.
    now rewrite setObject_assigned.
  - rewrite cloneEnv_spec. apply deref_copied.
  - now rewrite deref_assigned, deref_copied.
  - now apply deref_prefix.
  - exact Hp.
Qed.

Lemma clone_is_a_separate_object_witness :
  "x" ≠ "__proto__" ∧ (0 < length (envs initial))%nat
  ∧ ∃ st',
      (newEnv <- cloneEnv 0%nat ;; setObject newEnv "x" (VNumber 1) ;;; ret newEnv)
        initial
      = (Ret (length (envs initial)), st')
      ∧ deref (cloneEnv 0%nat initial).2 (length (envs initial))
        = deref initial 0%nat
      ∧ deref st' (length (envs initial))
        = <["x" := VNumber 1]> (deref initial 0%nat)
      ∧ deref st' 0%nat = deref initial 0%nat
      ∧ envs initial `prefix_of` envs st'.
Proof.
  assert (H1 : "x" ≠ "__proto__") by discriminate.
  assert (H2 : (0 < length (envs initial))%nat) by (cbn; lia).
  split; [exact H1|]. split; [exact H2|].
  exact (clone_is_a_separate_object 0%nat "x" (VNumber 1) initial H1 H2).
Defined.

(** ** Parameters *)

Lemma bindAll_cons parameter parameters value values objects :
  bindAll (parameter :: parameters) (value :: values) objects
  = bindAll parameters values (<[parameter := value]> objects).
Proof. reflexivity. Qed.

Lemma bindAll_lookup_other (text : string) parameters values
    (objects : gmap string Value) :
  text ∉ parameters -> bindAll parameters values objects !! text = objects !! text.
Proof.
  revert values objects.
  induction parameters as [|parameter parameters IH];
    intros [|value values] objects Hnot; try reflexivity.
  rewrite bindAll_cons, IH by set_solver.
  apply lookup_insert_ne. set_solver.
Qed.

Lemma bindAll_lookup_last (before after : list string) (text : string)
    values value (objects : gmap string Value) :
  text ∉ after ->
  values !! length before = Some value ->
  bindAll (before ++ text :: after) values objects !! text = Some value.
Proof.
  revert values objects.
  induction before as [|parameter before IH]; intros [|v values] objects Hnot Hv;
    try discriminate Hv.
  - cbn in Hv. injection Hv as ->. cbn [app]. rewrite bindAll_cons.
    rewrite bindAll_lookup_other by exact Hnot. apply lookup_insert_eq.
  - cbn [app]. rewrite bindAll_cons. now apply IH.
Qed.

(** The environment in which the body of a call runs: a name that is not
    a parameter resolves as in the environment the closure captured, and
    a parameter resolves to the argument at its position, the last
    position when the name is repeated in the parameter list; a parameter
    shadows a captured binding of the same name. *)
Theorem Call_binds_parameters fuel env closure arguments st1 values st2 :
  evaluatedInCaller fuel env (length (envs st1)) (Closure.parameters closure)
    arguments (copied (Closure.env closure) st1) values st2 ->
  (∀ text,
     text ∉ Closure.parameters closure ->
     deref st2 (length (envs st1)) !! text
     = deref st1 (Closure.env closure) !! text)
  ∧ (∀ before text after value,
       Closure.parameters closure = (before ++ text :: after)%list ->
       text ∉ after ->
       values !! length before = Some value ->
       deref st2 (length (envs st1)) !! text = Some value).
Proof.
  intros He.
  destruct (evaluated_deref _ _ _ _ _ He) as [Hd _].
  { unfold copied. cbn. rewrite length_app. cbn. lia. }
  rewrite deref_copied in Hd. rewrite Hd. split.
  - intros text Hnot. now apply bindAll_lookup_other.
  - intros before text after value -> Hnot Hv. now apply bindAll_lookup_last.
Qed.

Lemma Call_binds_parameters_witness :
  deref
    {| envs := [ {| objects := <["x" := VNumber 9]> ∅ |};
                 {| objects := <["x" := VNumber 2]> (<["x" := VNumber 9]> ∅) |} ];
       stdout := [] |} 1%nat !! "x"
  = Some (VNumber 2).
Proof.
  pose (closure := {| Closure.body := t.Var "x" nowhere;
                      Closure.parameters := ["x"; "x"];
                      Closure.env := 0%nat |}).
  pose (st1 := {| envs := [ {| objects := <["x" := VNumber 9]> ∅ |} ];
                  stdout := [] |}).
  refine (proj2 (Call_binds_parameters 1 0%nat closure
                   [t.Int 1 nowhere; t.Int 2 nowhere] st1
                   [VNumber 1; VNumber 2] _ _) ["x"] "x" [] (VNumber 2)
            eq_refl _ eq_refl).
  - eapply evaluated_cons; [reflexivity|reflexivity|].
    eapply evaluated_cons; [reflexivity|reflexivity|]. apply evaluated_nil.
  - apply not_elem_of_nil.
Defined.

(** ** Addition of several operands *)

Lemma append_assoc (s1 s2 s3 : string) : (s1 +:+ s2) +:+ s3 = s1 +:+ (s2 +:+ s3).
Proof.
  induction s1 as [|c s1 IH]; [reflexivity|].
  change (String c ((s1 +:+ s2) +:+ s3) = String c (s1 +:+ (s2 +:+ s3))).
  now rewrite IH.
Qed.

Lemma add_comm (a b : number) : Number.add a b = Number.add b a.
Proof.
  destruct a as [x| | | |], b as [y| | | |]; try reflexivity.
  cbn. now rewrite Z.add_comm.
Qed.

(** Chained additions.  On numbers [Add] is commutative, and associative
    as long as the sums stay within 2^53; above, the rounding of each sum
    makes the grouping matter: [(2^53 + 1) + 1] is 2^53 and [2^53 + (1 + 1)]
    is 2^53 + 2.  On strings it is associative.  Grouping also matters when
    numbers precede a string: [(a + b) + s] is the numeral of the sum
    followed by [s], while [a + (b + s)] is the two numerals followed by
    [s]. *)
Theorem Add_grouping :
  (∀ a b : number,
     interpretBinary (VNumber a) (VNumber b) t.Add
     = interpretBinary (VNumber b) (VNumber a) t.Add)
  ∧ (∀ a b c : Z,
       Z.abs (a + b) <= 2 ^ 53 -> Z.abs (b + c) <= 2 ^ 53 ->
       Z.abs (a + b + c) <= 2 ^ 53 ->
       obind (interpretBinary (VNumber a) (VNumber b) t.Add)
         (fun sum => interpretBinary sum (VNumber c) t.Add)
       = obind (interpretBinary (VNumber b) (VNumber c) t.Add)
           (fun sum => interpretBinary (VNumber a) sum t.Add))
  ∧ obind (interpretBinary (VNumber 9007199254740992) (VNumber 1) t.Add)
      (fun sum => interpretBinary sum (VNumber 1) t.Add)
    = Ret (VNumber 9007199254740992)
  ∧ obind (interpretBinary (VNumber 1) (VNumber 1) t.Add)
      (fun sum => interpretBinary (VNumber 9007199254740992) sum t.Add)
    = Ret (VNumber 9007199254740994)
  ∧ (∀ r s u : string,
       obind (interpretBinary (VString r) (VString s) t.Add)
         (fun text => interpretBinary text (VString u) t.Add)
       = obind (interpretBinary (VString s) (VString u) t.Add)
           (fun text => interpretBinary (VString r) text t.Add))
  ∧ (∀ (a b : Z) (s : string),
       Z.abs a <= 2 ^ 53 -> Z.abs b <= 2 ^ 53 -> Z.abs (a + b) <= 2 ^ 53 ->
       obind (interpretBinary (VNumber a) (VNumber b) t.Add)
         (fun sum => interpretBinary sum (VString s) t.Add)
       = Ret (VString (pretty (a + b) +:+ s))
       ∧ obind (interpretBinary (VNumber b) (VString s) t.Add)
           (fun text => interpretBinary (VNumber a) text t.Add)
         = Ret (VString (pretty a +:+ pretty b +:+ s)))
  ∧ pretty (1 + 2) +:+ "a" ≠ pretty 1 +:+ pretty 2 +:+ "a".
Proof.
  split; [|split; [|split; [|split; [|split; [|split]]]]].
  - intros a b. cbn. now rewrite add_comm.
  - intros a b c Hab Hbc Habc. cbn [interpretBinary obind Number.add].
    rewrite (nearest_exact (a + b)), (nearest_exact (b + c)) by assumption.
    cbn [interpretBinary obind Number.add]. now rewrite Z.add_assoc.
  - vm_compute. reflexivity.
  - vm_compute. reflexivity.
  - intros r s u. cbn. now rewrite append_assoc.
  - intros a b s Ha Hb Hab. split.
    + cbn [interpretBinary obind Number.add].
      rewrite (nearest_exact (a + b)) by assumption.
      cbn [interpretBinary castToString obind].
      now rewrite toString_exact.
    + cbn [interpretBinary castToString obind].
      now rewrite !toString_exact.
  - vm_compute. discriminate.
Qed.

Lemma Add_grouping_witness :
  Z.abs (1 + 2) <= 2 ^ 53
  ∧ obind (interpretBinary (VNumber 1) (VNumber 2) t.Add)
      (fun sum => interpretBinary sum (VString "a") t.Add)
    = Ret (VString "3a").
Proof.
  assert (H : ∀ z : Z, Z.abs z <= 3 -> Z.abs z <= 2 ^ 53)
    by (intros z Hz; change (2 ^ 53) with 9007199254740992; lia).
  split; [apply H; cbn; lia|].
  destruct Add_grouping as (_ & _ & _ & _ & _ & Hmixed & _).
  apply (Hmixed 1 2 "a"); apply H; cbn; lia.
Defined.

(** ** Addresses held by closures *)

Lemma allocated_mono n m value :
  (n <= m)%nat -> allocated n value -> allocated m value.
Proof.
  intros Hnm. induction value as [| | |closure|v1 IH1 v2 IH2]; cbn; try tauto.
  lia.
Qed.

Lemma deref_allocated st env text value :
  wellFormed st -> deref st env !! text = Some value ->
  allocated (length (envs st)) value.
Proof.
  intros Hwf. unfold deref. destruct (envs st !! env) as [record|] eqn:Hl; cbn.
  - intros Hv. exact (Hwf env record text value Hl Hv).
  - now rewrite lookup_empty.
Qed.

Lemma wellFormed_copied env st : wellFormed st -> wellFormed (copied env st).
Proof.
  intros Hwf address record text value Hl Hv.
  unfold copied in *. cbn [envs] in *. rewrite length_app. cbn [length].
  apply (allocated_mono (length (envs st))); [lia|].
  apply lookup_app_Some in Hl as [Hl|[_ Hl]].
  - now apply (Hwf address record text).
  - apply list_lookup_singleton_Some in Hl as [_ <-]. cbn in Hv.
    now apply (deref_allocated st env text).
Qed.

Lemma wellFormed_assigned env name value st :
  wellFormed st -> allocated (length (envs st)) value ->
  wellFormed (assigned env name value st).
Proof.
  intros Hwf Hvalue address record text w Hl Hw.
  unfold assigned in *. cbn [envs] in *. rewrite length_insert.
  apply list_lookup_insert_Some in Hl as [(_ & <- & _)|[_ Hl]].
  - cbn in Hw. apply lookup_insert_Some in Hw as [[_ <-]|[_ Hw]];
      [exact Hvalue|now apply (deref_allocated st env text)].
  - now apply (Hwf address record text).
Qed.

Lemma wellFormed_setObject env name value st :
  wellFormed st -> allocated (length (envs st)) value ->
  wellFormed (setObject env name value st).2
  ∧ length (envs (setObject env name value st).2) = length (envs st).
Proof.
  intros Hwf Hvalue. unfold setObject. case_bool_decide; [now split|].
  split; [now apply wellFormed_assigned|]. cbn. apply length_insert.
Qed.

Lemma interpretBinary_allocated left right op value n :
  interpretBinary left right op = Ret value -> allocated n value.
Proof.
  intros H.
  destruct op, left as [| |a| |], right as [| |b| |]; cbn in H;
    try discriminate H; injection H as <-; exact I.
Qed.

Section bindArguments_wellFormed.
Variable interp : t.Term -> ref -> M Value.
Hypothesis interp_prefix :
  ∀ term env st, envs st `prefix_of` envs (interp term env st).2.
Hypothesis interp_wellFormed :
  ∀ term env st,
    wellFormed st -> (env < length (envs st))%nat ->
    wellFormed (interp term env st).2
    ∧ ∀ value, (interp term env st).1 = Ret value ->
               allocated (length (envs (interp term env st).2)) value.

Lemma bindArguments_wellFormed parameters arguments env functionEnv st :
  wellFormed st -> (env < length (envs st))%nat ->
  wellFormed (bindArguments interp parameters arguments env functionEnv st).2
  ∧ (length (envs st)
     <= length (envs (bindArguments interp parameters arguments env
                        functionEnv st).2))%nat.
Proof.
  revert arguments st.
  induction parameters as [|parameter parameters IH];
    intros [|argument arguments] st Hwf Henv; try (split; [exact Hwf|cbn; lia]).
  cbn [bindArguments]. unfold bind.
  destruct (interp_wellFormed argument env st Hwf Henv) as [Hwf1 Hv1].
  pose proof (interp_prefix argument env st) as Hp1.
  apply prefix_length in Hp1.
  destruct (interp argument env st) as [[value|e|l] st1]; cbn [fst snd] in *;
    try (split; [exact Hwf1|exact Hp1]).
  destruct (wellFormed_setObject functionEnv parameter value st1 Hwf1
              (Hv1 value eq_refl)) as [Hwf2 Hlen2].
  destruct (setObject functionEnv parameter value st1) as [[[]|e|l] st2];
    cbn [fst snd] in *; try (split; [exact Hwf2|lia]).
  destruct (IH arguments st2 Hwf2 ltac:(lia)) as [Hwf3 Hlen3].
  split; [exact Hwf3|lia].
Qed.
End bindArguments_wellFormed.

Ltac leaf :=
  split;
  [ assumption
  | let Heq := fresh in
    intros ? Heq; cbn in Heq;
    first [ discriminate Heq | injection Heq as <-; cbn; auto ] ].

Lemma interpret_wellFormed fuel :
  ∀ term env st,
    wellFormed st -> (env < length (envs st))%nat ->
    wellFormed (interpret fuel term env st).2
    ∧ ∀ value, (interpret fuel term env st).1 = Ret value ->
               allocated (length (envs (interpret fuel term env st).2)) value.
Proof.
  induction fuel as [|fuel IH]; intros term env st Hwf Henv;
    [leaf|].
  destruct term; cbn [interpret]; unfold bind, ret, lift, throw.
  - (* Int *) leaf.
  - (* Str *) leaf.
  - (* Bool *) leaf.
  - (* Call *)
    destruct (IH term env st Hwf Henv) as [Hwf1 Hv1].
    pose proof (interpret_prefix fuel term env st) as Hp1.
    destruct (interpret fuel term env st) as [[func|e|l] st1];
      cbn [fst snd] in *; try (leaf; fail).
    specialize (Hv1 func eq_refl).
    destruct func as [| | |closure|]; cbn [assertClosure typeMismatch];
      try (leaf; fail).
    case_bool_decide; [leaf|].
    rewrite cloneEnv_spec.
    pose proof (wellFormed_copied (Closure.env closure) st1 Hwf1) as Hwf2.
    assert (Hlen2 : length (envs (copied (Closure.env closure) st1))
                    = S (length (envs st1))).
    { unfold copied. cbn. rewrite length_app. cbn. lia. }
    assert (Henv2 : (env < length (envs (copied (Closure.env closure) st1)))%nat).
    { apply prefix_length in Hp1. lia. }
    destruct (bindArguments_wellFormed (interpret fuel) (interpret_prefix fuel)
                IH (Closure.parameters closure) arguments env
                (length (envs st1)) _ Hwf2 Henv2) as [Hwf3 Hlen3].
    destruct (bindArguments _ _ _ _ _ _) as [[[]|e|l] st3]; cbn [fst snd] in *;
      try (leaf; fail).
    apply IH; [exact Hwf3|lia].
  - (* Binary *)
    destruct (IH term1 env st Hwf Henv) as [Hwf1 Hv1].
    pose proof (interpret_prefix fuel term1 env st) as Hp1.
    destruct (interpret fuel term1 env st) as [[left|e|l] st1];
      cbn [fst snd] in *; try (leaf; fail).
    assert (Henv1 : (env < length (envs st1))%nat)
      by (apply prefix_length in Hp1; lia).
    destruct (IH term2 env st1 Hwf1 Henv1) as [Hwf2 Hv2].
    destruct (interpret fuel term2 env st1) as [[right|e|l] st2];
      cbn [fst snd] in *; try (leaf; fail).
    split; [exact Hwf2|]. intros value Hvalue.
    now apply (interpretBinary_allocated left right op).
  - (* Function *)
    split; [exact Hwf|]. intros value [= <-]. exact Henv.
  - (* Let *)
    rewrite cloneEnv_spec.
    pose proof (wellFormed_copied env st Hwf) as Hwf1.
    assert (Hlen1 : length (envs (copied env st)) = S (length (envs st))).
    { unfold copied. cbn. rewrite length_app. cbn. lia. }
    destruct (IH term1 (length (envs st)) (copied env st) Hwf1 ltac:(lia))
      as [Hwf2 Hv2].
    pose proof (interpret_prefix fuel term1 (length (envs st)) (copied env st))
      as Hp2.
    destruct (interpret fuel term1 (length (envs st)) (copied env st))
      as [[value|e|l] st2]; cbn [fst snd] in *; try (leaf; fail).
    destruct (wellFormed_setObject (length (envs st)) (t.text name) value st2
                Hwf2 (Hv2 value eq_refl)) as [Hwf3 Hlen3].
    destruct (setObject _ _ _ st2) as [[[]|e|l] st3]; cbn [fst snd] in *;
      try (leaf; fail).
    apply IH; [exact Hwf3|]. apply prefix_length in Hp2. lia.
  - (* If *)
    destruct (IH term1 env st Hwf Henv) as [Hwf1 Hv1].
    pose proof (interpret_prefix fuel term1 env st) as Hp1.
    destruct (interpret fuel term1 env st) as [[condition|e|l] st1];
      cbn [fst snd] in *; try (leaf; fail).
    destruct (assertBool condition) as [boolean|e|l]; try (leaf; fail).
    apply IH; [exact Hwf1|]. apply prefix_length in Hp1. lia.
  - (* Print *)
    destruct (IH term env st Hwf Henv) as [Hwf1 Hv1].
    destruct (interpret fuel term env st) as [[value|e|l] st1];
      cbn [fst snd] in *; leaf.
  - (* First *)
    destruct (IH term env st Hwf Henv) as [Hwf1 Hv1].
    destruct (interpret fuel term env st) as [[value|e|l] st1];
      cbn [fst snd] in *; try (leaf; fail).
    specialize (Hv1 value eq_refl).
    destruct value; cbn [assertTuple typeMismatch]; try (leaf; fail).
    split; [exact Hwf1|]. intros v [= <-]. apply Hv1.
  - (* Second *)
    destruct (IH term env st Hwf Henv) as [Hwf1 Hv1].
    destruct (interpret fuel term env st) as [[value|e|l] st1];
      cbn [fst snd] in *; try (leaf; fail).
    specialize (Hv1 value eq_refl).
    destruct value; cbn [assertTuple typeMismatch]; try (leaf; fail).
    split; [exact Hwf1|]. intros v [= <-]. apply Hv1.
  - (* Tuple *)
    destruct (IH term1 env st Hwf Henv) as [Hwf1 Hv1].
    pose proof (interpret_prefix fuel term1 env st) as Hp1.
    destruct (interpret fuel term1 env st) as [[first|e|l] st1];
      cbn [fst snd] in *; try (leaf; fail).
    assert (Henv1 : (env < length (envs st1))%nat)
      by (apply prefix_length in Hp1; lia).
    destruct (IH term2 env st1 Hwf1 Henv1) as [Hwf2 Hv2].
    pose proof (interpret_prefix fuel term2 env st1) as Hp2.
    destruct (interpret fuel term2 env st1) as [[second|e|l] st2];
      cbn [fst snd] in *; try (leaf; fail).
    split; [exact Hwf2|]. intros v [= <-]. split; [|now apply Hv2].
    apply (allocated_mono (length (envs st1)));
      [now apply prefix_length|now apply Hv1].
  - (* Var *)
    unfold getObject. destruct (deref st env !! text) as [value|] eqn:Hl.
    + split; [exact Hwf|]. intros v [= <-].
      now apply (deref_allocated st env text).
    + now case_bool_decide.
Qed.

Lemma initial_wellFormed : wellFormed initial.
Proof.
  intros address record text value Hl Hv.
  apply list_lookup_singleton_Some in Hl as [_ <-]. cbn in Hv.
  now rewrite lookup_empty in Hv.
Qed.

(** Every closure refers to an environment that exists.  Evaluation from
    a state in which all values bound in the store refer to environments of
    the store reaches such a state again, and the value it returns refers
    to environments of the store; in particular this holds of the result
    and of the final store of every program, so the environment a call
    clones for the body is always a real record. *)
Theorem closures_refer_to_the_store :
  (∀ fuel term env st,
     wellFormed st -> (env < length (envs st))%nat ->
     wellFormed (interpret fuel term env st).2
     ∧ ∀ value, (interpret fuel term env st).1 = Ret value ->
                allocated (length (envs (interpret fuel term env st).2)) value)
  ∧ (∀ fuel file,
       wellFormed (interpretFile fuel file).2
       ∧ ∀ value, (interpretFile fuel file).1 = Ret value ->
                  allocated (length (envs (interpretFile fuel file).2)) value).
Proof.
  split; [intros fuel; apply interpret_wellFormed|].
  intros fuel file. unfold interpretFile.
  apply interpret_wellFormed; [apply initial_wellFormed|cbn; lia].
Qed.

Lemma closures_refer_to_the_store_witness :
  allocated (length (envs (interpretFile 4 (file selfReturning)).2))
    (VClosure {| Closure.body := t.Var "f" nowhere;
                 Closure.env := 1%nat;
                 Closure.parameters := [] |}).
Proof.
  apply (proj2 (proj2 closures_refer_to_the_store 4%nat (file selfReturning))).
  reflexivity.
Defined.

(** ** Locations *)

Section relocation.
Variable f : t.Location -> t.Location.

Lemma showValue_relocate value : showValue (relocateValue f value) = showValue value.
Proof.
  induction value as [| | | |v1 IH1 v2 IH2]; try reflexivity.
  cbn. now rewrite IH1, IH2.
Qed.

Lemma interpretBinary_relocate left right op :
  interpretBinary (relocateValue f left) (relocateValue f right) op
  = mapOutcome (relocateValue f) (interpretBinary left right op).
Proof.
  destruct op, left as [| |a| |], right as [| |b| |]; reflexivity.
Qed.

Lemma deref_relocate st env :
  deref (relocateState f st) env = relocateValue f <$> deref st env.
Proof.
  unfold deref, relocateState. cbn [envs]. rewrite list_lookup_fmap.
  unfold ref in *. destruct (envs st !! env) as [record|]; cbn; [reflexivity|].
  now rewrite fmap_empty.
Qed.

Lemma simulates_lift {A} (g : A -> A) (o : outcome A) :
  simulates f g (lift o) (lift (mapOutcome g o)).
Proof. now intros st. Qed.

Lemma simulates_bind {A B} (g : A -> A) (h : B -> B) (m m' : M A)
    (k k' : A -> M B) :
  simulates f g m m' -> (∀ a, simulates f h (k a) (k' (g a))) ->
  simulates f h (bind m k) (bind m' k').
Proof.
  intros Hm Hk st. unfold bind. rewrite Hm.
  destruct (m st) as [[a|e|l] st1]; cbn [fst snd mapOutcome];
    [apply Hk|reflexivity..].
Qed.

Lemma simulates_cloneEnv env : simulates f id (cloneEnv env) (cloneEnv env).
Proof.
  intros st. unfold cloneEnv. cbn [fst snd mapOutcome id].
  rewrite deref_relocate. unfold relocateState. cbn [envs stdout].
  now rewrite length_fmap, fmap_app.
Qed.

Lemma simulates_setObject env name value :
  simulates f id (setObject env name value)
    (setObject env name (relocateValue f value)).
Proof.
  intros st. unfold setObject. case_bool_decide; [reflexivity|].
  cbn [fst snd mapOutcome id]. rewrite deref_relocate.
  unfold relocateState. cbn [envs stdout].
  now rewrite list_fmap_insert, <- fmap_insert.
Qed.

Lemma simulates_getObject env text :
  simulates f (relocateValue f) (getObject env text) (getObject env text).
Proof.
  intros st. unfold getObject. rewrite deref_relocate, lookup_fmap.
  destruct (deref st env !! text) as [value|]; cbn; [reflexivity|].
  now case_bool_decide.
Qed.

Lemma simulates_console_log value :
  simulates f id (console_log (showValue value))
    (console_log (showValue (relocateValue f value))).
Proof. intros st. now rewrite showValue_relocate. Qed.

Lemma simulates_bindArguments (interp interp' : t.Term -> ref -> M Value)
    parameters arguments env functionEnv :
  (∀ term env,
     simulates f (relocateValue f) (interp term env) (interp' (relocate f term) env)) ->
  simulates f id
    (bindArguments interp parameters arguments env functionEnv)
    (bindArguments interp' parameters (map (relocate f) arguments) env functionEnv).
Proof.
  intros Hi. revert arguments.
  induction parameters as [|parameter parameters IH];
    intros [|argument arguments]; try apply (simulates_lift id (Ret tt)).
  cbn [map bindArguments].
  eapply simulates_bind; [apply Hi|intros value].
  eapply simulates_bind; [apply simulates_setObject|intros _]. apply IH.
Qed.

Lemma interpret_relocate fuel :
  ∀ term env,
    simulates f (relocateValue f) (interpret fuel term env)
      (interpret fuel (relocate f term) env).
Proof.
  induction fuel as [|fuel IH]; intros term env.
  - apply (simulates_lift (relocateValue f) (Stop OutOfFuel)).
  - destruct term; cbn [interpret relocate].
    + apply (simulates_lift (relocateValue f)
               (Ret (VNumber (Number.nearest value)))).
    + apply (simulates_lift (relocateValue f) (Ret (VString value))).
    + apply (simulates_lift (relocateValue f) (Ret (VBoolean value))).
    + (* Call *)
      eapply simulates_bind; [apply IH|intros func].
      apply (simulates_bind (relocateClosure f) (relocateValue f)
               (lift (assertClosure func))
               (lift (assertClosure (relocateValue f func)))).
      { destruct func; intros st; reflexivity. }
      intros closure. cbn [relocateClosure Closure.parameters Closure.env
                             Closure.body].
      rewrite length_map. case_bool_decide.
      { apply (simulates_lift (relocateValue f) (Throw _)). }
      eapply simulates_bind; [apply simulates_cloneEnv|intros functionEnv].
      eapply simulates_bind; [now apply simulates_bindArguments|intros _].
      apply IH.
    + (* Binary *)
      eapply simulates_bind; [apply IH|intros left].
      eapply simulates_bind; [apply IH|intros right].
      rewrite interpretBinary_relocate. apply simulates_lift.
    + (* Function *)
      assert (Hp : map t.text (map (relocateParameter f) parameters)
                   = map t.text parameters).
      { rewrite map_map. now apply map_ext. }
      rewrite Hp.
      apply (simulates_lift (relocateValue f)
               (Ret (VClosure {| Closure.body := term;
                                 Closure.env := env;
                                 Closure.parameters := map t.text parameters |}))).
    + (* Let *)
      eapply simulates_bind; [apply simulates_cloneEnv|intros newEnv].
      eapply simulates_bind; [apply IH|intros value].
      eapply simulates_bind; [apply simulates_setObject|intros _].
      apply IH.
    + (* If *)
      eapply simulates_bind; [apply IH|intros condition].
      apply (simulates_bind id (relocateValue f)
               (lift (assertBool condition))
               (lift (assertBool (relocateValue f condition)))).
      { destruct condition; intros st; reflexivity. }
      intros boolean. destruct boolean; apply IH.
    + (* Print *)
      eapply simulates_bind; [apply IH|intros value].
      eapply simulates_bind; [apply simulates_console_log|intros _].
      apply (simulates_lift (relocateValue f) (Ret value)).
    + (* First *)
      eapply simulates_bind; [apply IH|intros value].
      apply (simulates_bind
               (fun pair => (relocateValue f pair.1, relocateValue f pair.2))
               (relocateValue f)
               (lift (assertTuple value))
               (lift (assertTuple (relocateValue f value)))).
      { destruct value; intros st; reflexivity. }
      intros pair. apply (simulates_lift (relocateValue f) (Ret pair.1)).
    + (* Second *)
      eapply simulates_bind; [apply IH|intros value].
      apply (simulates_bind
               (fun pair => (relocateValue f pair.1, relocateValue f pair.2))
               (relocateValue f)
               (lift (assertTuple value))
               (lift (assertTuple (relocateValue f value)))).
      { destruct value; intros st; reflexivity. }
      intros pair. apply (simulates_lift (relocateValue f) (Ret pair.2)).
    + (* Tuple *)
      eapply simulates_bind; [apply IH|intros first].
      eapply simulates_bind; [apply IH|intros second].
      apply (simulates_lift (relocateValue f) (Ret (VTuple first second))).
    + (* Var *)
      apply simulates_getObject.
Qed.
End relocation.

(** The interpreter never reads a location.  Replacing the locations of
    a term, and of the closure bodies already in the store, changes
    nothing but the locations inside the closures of the result and of the
    store: the outcome is the same up to them, errors and output are
    identical.  A program therefore prints the same lines and ends the
    same way wherever its nodes are said to come from. *)
Theorem locations_are_never_read (f : t.Location -> t.Location) fuel :
  (∀ term env st,
     interpret fuel (relocate f term) env (relocateState f st)
     = (mapOutcome (relocateValue f) (interpret fuel term env st).1,
        relocateState f (interpret fuel term env st).2))
  ∧ (∀ expression location location',
       let original :=
         interpretFile fuel
           {| t.expression := expression; t.file_location := location |} in
       let relocated :=
         interpretFile fuel
           {| t.expression := relocate f expression;
              t.file_location := location' |} in
       relocated.1 = mapOutcome (relocateValue f) original.1
       ∧ stdout relocated.2 = stdout original.2
       ∧ (∀ e, original.1 = Throw e ↔ relocated.1 = Throw e)
       ∧ (∀ value, original.1 = Ret value ->
            kind value ∈ ["number"; "string"; "boolean"] ->
            relocated.1 = Ret value)).
Proof.
  split; [intros term env st; apply interpret_relocate|].
  intros expression location location' original relocated.
  assert (H : relocated
              = (mapOutcome (relocateValue f) original.1,
                 relocateState f original.2)).
  { unfold relocated, original, interpretFile. cbn [t.expression].
    apply (interpret_relocate f fuel expression 0%nat initial). }
  rewrite H. cbn [fst snd]. split; [reflexivity|]. split; [reflexivity|].
  split.
  - intros e. destruct original.1; cbn; split; congruence.
  - intros value -> Hk. cbn. f_equal.
    destruct value; try reflexivity; exfalso; cbn in Hk;
      repeat (apply elem_of_cons in Hk as [Hk|Hk]; [discriminate Hk|]);
      now apply elem_of_nil in Hk.
Qed.
